(** * Toonmotion: frame generation, normalisation and encoding

    A shallow embedding of [services/gemini.ts] (the batched, cancellable
    frame generator), [services/videoProcessor.ts] (background removal,
    bounding box, scaling and centring, and the APNG / GIF / ZIP encoders)
    and the [try] / [catch] of [handleGenerate] in [App.tsx], with the
    properties the specification states about them.

    Conventions.
    - Typed arrays are [list Z] of samples in 0..255, read with stdpp's
      lookup (an out-of-range read is [None], JavaScript's [undefined]) and
      written with stdpp's insert (an out-of-range write does nothing, as on
      a typed array).
    - [ArrayBuffer]s live in a store [gmap loc (list Z)]: a frame holds a
      reference to its pixel buffer, so aliasing between the encoders is
      visible.
    - A [throw] / rejected promise is [Err msg], carrying the message of
      the [Error].
    - The libraries loaded by script tags (UPNG, gif.js, JSZip), the
      browser's canvas and the remote model are fields of environment
      records. *)

From Stdlib Require Import QArith Qcanon Qround.
From stdpp Require Import base option list sorting gmap strings pretty numbers.

Local Open Scope Z_scope.

(** ** Results of fallible code *)

Inductive result (A : Type) : Type :=
  | Ok (a : A)
  | Err (msg : string).
Arguments Ok {A} a.
Arguments Err {A} msg.

Definition is_Err {A} (r : result A) : Prop :=
  match r with Ok _ => False | Err _ => True end.

Definition is_Ok {A} (r : result A) : Prop :=
  match r with Ok _ => True | Err _ => False end.

(** ** [for (let i = start; i < bound; i += step)]

    The loops of the source advance a counter by a positive constant, so
    [bound - start] iterations always suffice; [fuel] is that many. *)

Fixpoint for_loop {St : Type} (step fuel : nat) (i bound : nat)
    (body : nat → St → St) (s : St) : St :=
  match fuel with
  | O => s
  | S fuel' =>
      if decide (i < bound)%nat
      then for_loop step fuel' (i + step)%nat bound body (body i s)
      else s
  end.

(** ** JavaScript comparisons on possibly-[undefined] samples

    [undefined < n] and [undefined > n] are both [false]. *)

Definition js_lt (a : option Z) (n : Z) : bool :=
  match a with Some v => bool_decide (v < n) | None => false end.

Definition js_gt (a : option Z) (n : Z) : bool :=
  match a with Some v => bool_decide (v > n) | None => false end.

(** Conversion of a stored value to a [Uint8ClampedArray] element:
    [undefined] becomes 0, numbers are clamped to 0..255. *)

Definition to_uint8_clamped (v : option Z) : Z :=
  match v with
  | None => 0
  | Some x => Z.max 0 (Z.min x 255)
  end.

(** ** The store of array buffers *)

Definition loc := nat.
Abbreviation heap := (gmap loc (list Z)).

(** [new Uint8ClampedArray(buffer)] is a view on [buffer], not a copy:
    reads of the view are reads of the buffer. *)

Definition view_length (h : heap) (l : loc) : nat :=
  from_option length 0%nat (h !! l).

Definition view_get (h : heap) (l : loc) (i : nat) : option Z :=
  h !! l ≫= λ buf, buf !! i.

Definition view_set (h : heap) (l : loc) (i : nat) (v : option Z) : heap :=
  alter (λ buf, <[i := to_uint8_clamped v]> buf) l h.

(** [new Uint8ClampedArray(n)]: a fresh zero-filled buffer. *)

Definition alloc (n : nat) (h : heap) : loc * heap :=
  let l := fresh (dom h) in (l, <[l := replicate n 0]> h).

(** ** Frames *)

Definition Blob := list Z.

Record GeneratedFrame := mkFrame {
  blob : Blob;
  dataUrl : string;
  index : nat;
  pixelBuffer : option loc;
  width : option Z;
  height : option Z
}.

(** ** GIF chroma keying ([createGif], the loop over one frame's pixels) *)

Definition keyPixel (originalBuffer newBuffer : loc) (i : nat) (h : heap) : heap :=
  let r := view_get h originalBuffer i in
  let g := view_get h originalBuffer (i + 1) in
  let b := view_get h originalBuffer (i + 2) in
  let a := view_get h originalBuffer (i + 3) in
  if js_lt a 128 then
    let h := view_set h newBuffer i (Some 255) in
    let h := view_set h newBuffer (i + 1) (Some 0) in
    let h := view_set h newBuffer (i + 2) (Some 255) in
    view_set h newBuffer (i + 3) (Some 255)
  else
    let h := view_set h newBuffer i r in
    let h := view_set h newBuffer (i + 1) g in
    let h := view_set h newBuffer (i + 2) b in
    view_set h newBuffer (i + 3) (Some 255).

(** The block of [createGif] that builds the keyed buffer of one frame:
    a view on the frame's buffer, a fresh buffer of the same length, and
    the loop over the pixels. It returns the new buffer. *)

Definition magentaKey (pixelBuffer : loc) (h : heap) : loc * heap :=
  let originalBuffer := pixelBuffer in
  let '(newBuffer, h) := alloc (view_length h originalBuffer) h in
  let n := view_length h originalBuffer in
  (newBuffer, for_loop 4 n 0 n (keyPixel originalBuffer newBuffer) h).
Arguments magentaKey : simpl never.

(** A pixel of an RGBA buffer. *)

Definition pixel_at (buf : list Z) (p : nat) : option (Z * Z * Z * Z) :=
  r ← buf !! (4 * p)%nat;
  g ← buf !! (4 * p + 1)%nat;
  b ← buf !! (4 * p + 2)%nat;
  a ← buf !! (4 * p + 3)%nat;
  Some (r, g, b, a).

Definition heap_pixel (h : heap) (l : loc) (p : nat) : option (Z * Z * Z * Z) :=
  h !! l ≫= λ buf, pixel_at buf p.

(** ** JavaScript numbers

    Frame rates, the zoom factor and the scaled geometry are IEEE doubles in
    the source. The arithmetic is kept abstract, so that what is proved of
    the code's formulas holds for doubles as it does for exact rationals;
    [Qc_number] below is the exact instance. *)

Class JsNumber (num : Type) := {
  of_Z : Z → num;
  lit_0_85 : num;             (* the literal [0.85] *)
  nmul : num → num → num;
  ndiv : num → num → num;
  nsub : num → num → num;
  nround : num → num          (* [Math.round] *)
}.

Declare Scope js_scope.
Delimit Scope js_scope with js.
Infix "*" := nmul : js_scope.
Infix "/" := ndiv : js_scope.
Infix "-" := nsub : js_scope.

#[export] Instance Qc_number : JsNumber Qc := {|
  of_Z := Qc_of_Z;
  lit_0_85 := Q2Qc (Qmake 85 100);
  nmul := Qcmult;
  ndiv := Qcdiv;
  nsub := Qcminus;
  nround := λ x, Qc_of_Z (Qfloor (x + Q2Qc (Qmake 1 2))%Qc)
|}.

(** ** The encoders ([createApng], [createGif], [createZip]) *)

Record ImageData := mkImageData {
  data : loc;
  iwidth : Z;
  iheight : Z
}.

Record GifConfig := mkGifConfig {
  workers : Z;
  quality : Z;
  gwidth : option Z;
  gheight : option Z;
  workerScript : string;
  transparent : Z
}.

(** The script-tag libraries. A library that is not loaded is [None]; a
    call that throws is [Err]. The encoders read the contents of the
    buffers they are handed. *)

Record Encoders (num : Type) := mkEncoders {
  UPNG_encode :
    option (list (list Z) → Z → Z → Z → list num → result Blob);
  GIF_render :
    option (GifConfig → list (list Z * Z * Z * num) → result Blob);
  fetch_worker : result string;
  JSZip_generate :
    option (string → list (string * Blob) → result Blob)
}.
Arguments UPNG_encode {num} _.
Arguments GIF_render {num} _.
Arguments fetch_worker {num} _.
Arguments JSZip_generate {num} _.

Definition contents (h : heap) (l : loc) : list Z := default [] (h !! l).

Section encoders.
Context {num : Type} `{!JsNumber num}.

Definition createApng (env : Encoders num) (h : heap)
    (frames : list GeneratedFrame) (fps : num) : result Blob :=
  match UPNG_encode env with
  | None => Err "UPNG library not loaded"
  | Some encode =>
      if decide (length frames = 0%nat) then Err "No frames to encode" else
      let width := default 0 (frames !! 0%nat ≫= width) in
      let height := default 0 (frames !! 0%nat ≫= height) in
      let buffers := omap pixelBuffer frames in
      let delay := nround (of_Z 1000 / fps)%js in
      let delays := replicate (length buffers) delay in
      match encode (contents h <$> buffers) width height 0 delays with
      | Ok apngBuffer => Ok apngBuffer
      | Err _ => Err "Failed to encode APNG."
      end
  end.

(** [new ImageData(data, sw, sh)] throws unless [data] holds exactly
    [sw × sh] pixels, at least one. The message is the browser's. *)

Definition new_ImageData (h : heap) (newBuffer : loc) (sw sh : Z) :
    result ImageData :=
  if decide (0 < sw ∧ 0 < sh ∧ Z.of_nat (view_length h newBuffer) = 4 * sw * sh)
  then Ok (mkImageData newBuffer sw sh)
  else Err "The input data length is not equal to (4 * width * height).".

(** [frame.width && frame.height]: defined and non-zero. *)

Definition truthy (n : option Z) : option Z :=
  match n with
  | Some v => if decide (v = 0) then None else Some v
  | None => None
  end.

(** The loop [for (const frame of frames)] of [createGif]; [gif] is the
    list of frames added to the encoder so far. *)

Fixpoint addFrames (h : heap) (frames : list GeneratedFrame) (fps : num)
    (gif : list (ImageData * num)) : heap * result (list (ImageData * num)) :=
  match frames with
  | [] => (h, Ok gif)
  | frame :: rest =>
      match pixelBuffer frame, truthy (width frame), truthy (height frame) with
      | Some pb, Some w, Some ht =>
          let '(newBuffer, h) := magentaKey pb h in
          match new_ImageData h newBuffer w ht with
          | Err e => (h, Err e)
          | Ok finalImageData =>
              addFrames h rest fps (gif ++ [(finalImageData, (of_Z 1000 / fps)%js)])
          end
      | _, _, _ => addFrames h rest fps gif
      end
  end.

(** What the encoder reads of an added frame when it renders: the
    contents of the [ImageData]'s buffer, its size and the delay. *)

Definition frameData (h : heap) (f : ImageData * num) : list Z * Z * Z * num :=
  (contents h (data f.1), iwidth f.1, iheight f.1, f.2).

(** [createGif]. Everything after the check of [window.GIF] runs in a
    [try] whose [catch] rejects with the error caught: a failed fetch of
    the worker script, the [TypeError] of [frames[0].width] when there is
    no frame (its message is the engine's), a throwing [ImageData]. *)

Definition createGif (env : Encoders num) (h : heap)
    (frames : list GeneratedFrame) (fps : num) : heap * result Blob :=
  match GIF_render env with
  | None => (h, Err "GIF.js library not loaded")
  | Some render =>
      match fetch_worker env with
      | Err e => (h, Err e)
      | Ok workerUrl =>
          match frames !! 0%nat with
          | None =>
              (h, Err "Cannot read properties of undefined (reading 'width')")
          | Some frame0 =>
              let gifConfig :=
                mkGifConfig 2 10 (width frame0) (height frame0) workerUrl 0xFF00FF in
              match addFrames h frames fps [] with
              | (h, Err e) => (h, Err e)
              | (h, Ok gif) =>
                  (h, render gifConfig (frameData h <$> gif))
              end
          end
      end
  end.

(** [s.padStart(n, c)] for a one-character pad. *)

Definition padStart (n : nat) (c : string) (s : string) : string :=
  String.concat "" (replicate (n - String.length s) c) +:+ s.

Definition createZip (env : Encoders num) (frames : list GeneratedFrame) :
    result Blob :=
  match JSZip_generate env with
  | None => Err "JSZip library not loaded"
  | Some generateAsync =>
      let files :=
        imap (λ index frame,
                ("frame_" +:+ padStart 2 "0" (pretty (index + 1)%nat) +:+ ".png",
                 blob frame)) frames in
      generateAsync "frames" files
  end.
End encoders.

(** ** The encoding phase of [handleGenerate] (App.tsx)

    APNG first, and its failure ends the run; GIF and ZIP failures are
    caught and leave that artifact absent. *)

Record Artifacts := mkArtifacts {
  videoUrl : Blob;
  gifUrl : option Blob;
  zipUrl : option Blob
}.

Definition try_catch {A} (r : result A) : option A :=
  match r with Ok a => Some a | Err _ => None end.

Definition encodeArtifacts {num : Type} `{!JsNumber num} (env : Encoders num)
    (h : heap) (frames : list GeneratedFrame) (fps : num) : heap * result Artifacts :=
  match createApng env h frames fps with
  | Err e => (h, Err e)
  | Ok apngBlob =>
      let '(h, gifBlob) := createGif env h frames fps in
      let gifUrl := try_catch gifBlob in
      let zipUrl := try_catch (createZip env frames) in
      (h, Ok (mkArtifacts apngBlob gifUrl zipUrl))
  end.

(** ** Frame normalisation ([processFrameData], [processGeneratedFrames]) *)

(** A decoded image: [drawImage(img, 0, 0)] followed by [getImageData] on
    a canvas of the image's natural size gives [pixels], four samples per
    pixel, row by row. *)

Record Image := mkImage {
  naturalWidth : nat;
  naturalHeight : nat;
  pixels : list Z
}.

Definition wf_image (img : Image) : Prop :=
  (0 < naturalWidth img)%nat ∧ (0 < naturalHeight img)%nat ∧
  length (pixels img) = (4 * (naturalWidth img * naturalHeight img))%nat.

(** The state of the scanning loop of [processFrameData]. *)

Record Scan := mkScan {
  sdata : list Z;
  minX : nat;
  minY : nat;
  maxX : nat;
  maxY : nat;
  foundPixel : bool
}.

Definition threshold : Z := 240.

#[export] Instance nat_gt_dec : RelDecision (gt : nat → nat → Prop) :=
  λ x y, decide (y < x)%nat.

(** [Math.floor(n * 0.05)]. For the sizes a canvas can have, the double
    product [n * 0.05] has the same integer part as the exact [n / 20]. *)

Definition margin (n : nat) : nat := (n / 20)%nat.

Definition set_alpha0 (i : nat) (s : Scan) : Scan :=
  mkScan (<[(i + 3)%nat := 0]> (sdata s)) (minX s) (minY s) (maxX s) (maxY s)
         (foundPixel s).

Definition scanPixel (cw ch marginX marginY : nat) (i : nat) (s : Scan) : Scan :=
  let x := ((i / 4) `mod` cw)%nat in
  let y := ((i / 4) / cw)%nat in
  (* 1. SAFETY CROP *)
  if bool_decide (x < marginX ∨ x > cw - marginX ∨ y < marginY ∨ y > ch - marginY)%nat
  then set_alpha0 i s
  else
    let r := sdata s !! i in
    let g := sdata s !! (i + 1)%nat in
    let b := sdata s !! (i + 2)%nat in
    (* 2. BACKGROUND REMOVAL *)
    if js_gt r threshold && js_gt g threshold && js_gt b threshold
    then set_alpha0 i s
    else
      if js_gt (sdata s !! (i + 3)%nat) 20 then
        mkScan (sdata s)
               (if bool_decide (x < minX s)%nat then x else minX s)
               (if bool_decide (y < minY s)%nat then y else minY s)
               (if bool_decide (x > maxX s)%nat then x else maxX s)
               (if bool_decide (y > maxY s)%nat then y else maxY s)
               true
      else s.

Definition scanFrame (img : Image) : Scan :=
  let cw := naturalWidth img in
  let ch := naturalHeight img in
  let data := pixels img in
  for_loop 4 (length data) 0 (length data)
    (scanPixel cw ch (margin cw) (margin ch))
    (mkScan data cw ch 0 0 false).

(** [charCtx.drawImage(canvas, sx, sy, sw, sh, 0, 0, sw, sh)] on a fresh
    [sw × sh] canvas: the rectangle is copied sample for sample, and
    nothing is drawn when [sw] or [sh] is 0. (A canvas stores its pixels
    premultiplied, which may change the colour samples of pixels that are
    not opaque; the claims are about the geometry, and this is left out.) *)

Definition cropRegion (data : list Z) (cw : nat) (sx sy sw sh : nat) : list Z :=
  flat_map (λ y, take (4 * sw) (drop (4 * ((sy + y) * cw + sx)) data)) (seq 0 sh).

Record CharCanvas := mkCharCanvas {
  image : list Z;
  cwidth : Z;
  cheight : Z
}.

(** Arguments of the nine-argument [drawImage]: source rectangle in
    integers, destination rectangle in JavaScript numbers. *)

Record DrawArgs (num : Type) := mkDrawArgs {
  sx : Z; sy : Z; sWidth : Z; sHeight : Z;
  dx : num; dy : num; dWidth : num; dHeight : num
}.
Arguments mkDrawArgs {num} _ _ _ _ _ _ _ _.
Arguments sx {num} _.
Arguments sy {num} _.
Arguments sWidth {num} _.
Arguments sHeight {num} _.
Arguments dx {num} _.
Arguments dy {num} _.
Arguments dWidth {num} _.
Arguments dHeight {num} _.

(** The browser: image loading, canvas contexts, the rasteriser behind
    [drawImage] with scaling, and PNG export. *)

Record Browser (num : Type) := mkBrowser {
  (* [img.onload] with the decoded image, or [img.onerror] *)
  loadImage : string → option Image;
  (* whether [getContext('2d')] on a canvas of this size gives a context *)
  getContext2d : Z → Z → bool;
  (* [getImageData] of a transparent [w × h] canvas after one [drawImage] *)
  drawImage : CharCanvas → DrawArgs num → Z → Z → list Z;
  (* [canvas.toBlob(_, 'image/png')], [null] on failure *)
  toBlob : list Z → Z → Z → option Blob;
  createObjectURL : Blob → string
}.
Arguments loadImage {num} _ _.
Arguments getContext2d {num} _ _ _.
Arguments drawImage {num} _ _ _ _ _.
Arguments toBlob {num} _ _ _ _.
Arguments createObjectURL {num} _ _.

Section normalizer.
Context {num : Type} `{!JsNumber num}.

Definition processFrameData (br : Browser num) (img : Image)
    (targetWidth targetHeight : Z) : option CharCanvas :=
  let cw := naturalWidth img in
  let ch := naturalHeight img in
  if negb (getContext2d br (Z.of_nat cw) (Z.of_nat ch)) then None else
  let s := scanFrame img in
  if negb (foundPixel s) then None else
  let charWidth := Z.of_nat (maxX s) - Z.of_nat (minX s) in
  let charHeight := Z.of_nat (maxY s) - Z.of_nat (minY s) in
  if negb (getContext2d br charWidth charHeight) then None else
  Some (mkCharCanvas
          (cropRegion (sdata s) cw (minX s) (minY s)
                      (Z.to_nat charWidth) (Z.to_nat charHeight))
          charWidth charHeight).

(** The scale and centring computed in [img.onload]. *)

Definition placement (width height : Z) (targetWidth targetHeight : Z)
    (zoom : num) : DrawArgs num :=
  let baseScale := lit_0_85 in
  let targetCharHeight := (of_Z targetHeight * baseScale * zoom)%js in
  let scale := (targetCharHeight / of_Z height)%js in
  let drawW := (of_Z width * scale)%js in
  let drawH := (of_Z height * scale)%js in
  let destX := ((of_Z targetWidth - drawW) / of_Z 2)%js in
  let destY := ((of_Z targetHeight - drawH) / of_Z 2)%js in
  mkDrawArgs 0 0 width height destX destY drawW drawH.

(** The body of [img.onload] for the image at position [i]: the frame it
    pushes, if any. The pixel data read back from the final canvas is a
    new buffer. *)

Definition onload (br : Browser num) (h : heap) (i : nat) (img : Image)
    (targetWidth targetHeight : Z) (zoom : num) : heap * option GeneratedFrame :=
  let processed := processFrameData br img targetWidth targetHeight in
  match getContext2d br targetWidth targetHeight, processed with
  | true, Some processed =>
      let args :=
        placement (cwidth processed) (cheight processed)
                  targetWidth targetHeight zoom in
      let canvas := drawImage br processed args targetWidth targetHeight in
      let blob := toBlob br canvas targetWidth targetHeight in
      let pixelData := fresh (dom h) in
      let h := <[pixelData := canvas]> h in
      match blob with
      | Some blob =>
          (h, Some (mkFrame blob (createObjectURL br blob) i (Some pixelData)
                            (Some targetWidth) (Some targetHeight)))
      | None => (h, None)
      end
  | _, _ => (h, None)
  end.

Definition processGeneratedFrames (br : Browser num) (h : heap)
    (imageUrls : list string) (targetWidth targetHeight : Z) (zoom : num) :
    heap * list GeneratedFrame :=
  for_loop 1 (length imageUrls) 0 (length imageUrls)
    (λ i '(h, frames),
       match imageUrls !! i ≫= loadImage br with
       | Some img =>
           let '(h, pushed) := onload br h i img targetWidth targetHeight zoom in
           (h, frames ++ option_list pushed)
       | None => (h, frames)     (* onerror: skip the frame *)
       end)
    (h, []).
End normalizer.

(** ** The remote frame generator (services/gemini.ts) *)

Record InlineData := mkInlineData {
  inline_data : option string;
  inline_mimeType : option string
}.

Record Part := mkPart {
  text : option string;
  inlineData : option InlineData
}.

Record Candidate := mkCandidate {
  finishReason : option string;
  parts : list Part                       (* [content?.parts], absent = empty *)
}.

Record Response := mkResponse {
  candidates : list Candidate             (* absent = empty *)
}.

Record Request := mkRequest {
  req_data : string;
  req_mimeType : string;
  req_text : string
}.

(** The remote model and the browser calls of the generator. What the model
    answers may differ from one request to the next, so the answer is a
    function of the frame index too; [settles j] is the position of request
    [j] in the order in which the promises of a batch settle. *)

Record Remote := mkRemote {
  API_KEY : option string;                              (* [process.env.API_KEY] *)
  generateContent : nat → Request → result Response;    (* [Err]: the call throws *)
  toObjectURL : string → string → result string;        (* [atob], [Blob], [createObjectURL] *)
  settles : nat → nat
}.

(** A string used as a condition: defined and not empty. *)

Definition nonempty (s : option string) : option string :=
  match s with
  | Some v => if decide (v = "") then None else Some v
  | None => None
  end.

Definition newline : string := String (Ascii.ascii_of_nat 10) "".

Definition enhancedPrompt (prompt : string) (index total : nat) : string :=
  String.concat newline [
    "Generate frame " +:+ pretty (index + 1)%nat +:+ " of " +:+ pretty total
      +:+ " for an animation sequence.";
    "  ";
    "  Subject: Fictional, generic chibi game character.";
    "  Visual Style: 2D digital game art, flat color, high contrast.";
    "  Action: " +:+ prompt;
    "  ";
    "  CRITICAL CONSTRAINTS:";
    "  1. **View**: Full body, Frontal, Orthographic view.";
    "  2. **Background**: Pure White (#FFFFFF).";
    "  3. **Framing**: Character must be fully visible within the frame, no cropping.";
    "  4. **Consistency**: Maintain exact character proportions and design details from the reference image.";
    "  5. **Content**: NO text, NO grid lines, NO numbers, NO extra objects. One character only.";
    "  ";
    "  Output: A single high-quality image."
  ].

Definition getAiClient (rm : Remote) : result string :=
  match nonempty (API_KEY rm) with
  | None => Err "API Key not found. Please select an API Key."
  | Some key => Ok key
  end.

(** The [catch] of [generateSingleFrame] logs and rethrows, so every
    failure leaves the function as it arose. *)

Definition generateSingleFrame (rm : Remote) (imageBase64 mimeType prompt : string)
    (index total : nat) : result string :=
  match getAiClient rm with
  | Err e => Err e
  | Ok ai =>
      match generateContent rm index
              (mkRequest imageBase64 mimeType (enhancedPrompt prompt index total)) with
      | Err e => Err e
      | Ok response =>
          match head (candidates response) with
          | None => Err "Gemini API returned no candidates."
          | Some candidate =>
              let stopped :=
                match nonempty (finishReason candidate) with
                | Some reason => bool_decide (reason ≠ "STOP")
                | None => false
                end in
              if stopped then
                Err ("Model stopped generation: " +:+ default "" (finishReason candidate))
              else
              let part := head (parts candidate) in
              match part ≫= λ p, nonempty (text p) with
              | Some refusal =>
                  Err ("Model Refusal: " +:+ String.substring 0 100 refusal +:+ "...")
              | None =>
                  let inline := part ≫= inlineData in
                  match inline ≫= λ d, nonempty (inline_data d) with
                  | None => Err "No image data generated."
                  | Some base64Image =>
                      let resultMime :=
                        default "image/png" (nonempty (inline ≫= inline_mimeType)) in
                      toObjectURL rm base64Image resultMime
                  end
              end
          end
      end
  end.

(** *** [generateAnimationFrames]

    What the generator does is recorded as a trace: every read of
    [signal.aborted] with the value read, and every call of
    [generateSingleFrame]. The abort signal is a function of the number of
    reads made so far; without a signal, [signal?.aborted] is [undefined],
    which the conditions take as [false]. *)

Inductive Event :=
  | ReadAborted (aborted : bool)
  | CallGenerate (j : nat).

Record GenState := mkGenState {
  trace : list Event;
  reads : nat
}.

Definition read_aborted (signal : option (nat → bool)) (st : GenState) :
    bool * GenState :=
  let aborted := from_option (λ s, s (reads st)) false signal in
  (aborted, mkGenState (trace st ++ [ReadAborted aborted]) (S (reads st))).

Definition call_generate (j : nat) (st : GenState) : GenState :=
  mkGenState (trace st ++ [CallGenerate j]) (reads st).

(** [Promise.all]: the values in order when every promise is fulfilled,
    otherwise the reason of the rejected promise that settles first (of two
    that settle together, the one added first). Each promise is paired with
    the position at which it settles. *)

Definition first_rejection {A} (promises : list (nat * result A)) :
    option (nat * string) :=
  foldl (λ best p,
           match p.2, best with
           | Err e, Some (t, _) => if decide (p.1 < t)%nat then Some (p.1, e) else best
           | Err e, None => Some (p.1, e)
           | Ok _, _ => best
           end) None promises.

Definition promise_all {A} (promises : list (nat * result A)) : result (list A) :=
  match first_rejection promises with
  | Some (_, e) => Err e
  | None => Ok (omap (λ p, try_catch p.2) promises)
  end.

Definition batchSize : nat := 3.

Definition abort_message : string := "Generation aborted by user.".

Section generator.
Context (rm : Remote) (imageBase64 mimeType prompt : string).
Context (count : nat) (signal : option (nat → bool)).

(** The inner loop: the calls of one batch, in order of [j]. The delay
    before each call takes time but changes no state. *)

Definition startBatch (i : nat) (st : GenState) :
    list (nat * result string) * GenState :=
  let bound := ((i + batchSize) `min` count)%nat in
  for_loop 1 (bound - i)%nat i bound
    (λ j '(batchPromises, st),
       (batchPromises ++
          [(settles rm j, generateSingleFrame rm imageBase64 mimeType prompt j count)],
        call_generate j st))
    ([], st).

(** The outer loop, from batch start [i] with [urls] collected so far. *)

Fixpoint batches (fuel : nat) (i : nat) (urls : list string) (st : GenState) :
    GenState * result (list string) :=
  match fuel with
  | O => (st, Ok urls)
  | S fuel' =>
      if decide (i < count)%nat then
        let '(aborted, st) := read_aborted signal st in
        if aborted then (st, Err abort_message) else
        let '(batchPromises, st) := startBatch i st in
        match promise_all batchPromises with
        | Err e => (st, Err e)
        | Ok batchResults =>
            let '(aborted, st) := read_aborted signal st in
            if aborted then (st, Err abort_message) else
            batches fuel' (i + batchSize)%nat (urls ++ batchResults) st
        end
      else (st, Ok urls)
  end.

Definition generateAnimationFrames : GenState * result (list string) :=
  batches count 0 [] (mkGenState [] 0).
End generator.

(** ** [handleGenerate] (App.tsx): the [try] block and the first test of
    its [catch]

    A caught error whose message is the abort message ends the run as
    cancelled (the stop handler has already set the status); any other
    error ends it as failed with that message, which the rest of the
    [catch] only rewords for display. *)

Inductive RunStatus :=
  | Completed (artifacts : Artifacts)
  | Cancelled
  | Failed (errorMessage : string).

Definition catch_error (message : string) : RunStatus :=
  if decide (message = "Generation aborted by user.") then Cancelled
  else Failed message.

Record UserConfig (num : Type) := mkUserConfig {
  prompt : string;
  fps : num;
  frameCount : nat;
  zoom : num
}.
Arguments prompt {num} _.
Arguments fps {num} _.
Arguments frameCount {num} _.
Arguments zoom {num} _.

Definition handleGenerate {num : Type} `{!JsNumber num}
    (rm : Remote) (br : Browser num) (env : Encoders num) (h : heap)
    (base64Data mimeType : string) (config : UserConfig num)
    (signal : option (nat → bool)) (originalDimensions : option (Z * Z)) : RunStatus :=
  match generateAnimationFrames rm base64Data mimeType (prompt config)
          (frameCount config) signal with
  | (_, Err e) => catch_error e
  | (_, Ok frameUrls) =>
      let targetW := default 512 (truthy (fst <$> originalDimensions)) in
      let targetH := default 512 (truthy (snd <$> originalDimensions)) in
      let '(h, frames) :=
        processGeneratedFrames br h frameUrls targetW targetH (zoom config) in
      match encodeArtifacts env h frames (fps config) with
      | (_, Err e) => catch_error e
      | (_, Ok artifacts) => Completed artifacts
      end
  end.

(** ** [checkApiKey] (services/gemini.ts)

    [hasSelectedApiKey] is [window.aistudio.hasSelectedApiKey] awaited:
    absent ([None]), its answer, or [Err] when it throws (which the
    function catches and answers [false]). *)

Definition checkApiKey (rm : Remote) (hasSelectedApiKey : option (result bool)) : bool :=
  match nonempty (API_KEY rm) with
  | Some _ => true
  | None =>
      match hasSelectedApiKey with
      | Some (Ok selected) => selected
      | Some (Err _) => false
      | None => false
      end
  end.

(** ** The rest of the [catch] of [handleGenerate]: what is shown for an
    error that is not the abort

    [parseError] stands for the [try] block around [JSON.parse]: the
    message found under [error] in the JSON text embedded in the message,
    or [None] when there is none or parsing throws. *)

Inductive ErrorShown :=
  | AuthError                           (* the missing-key notice; the key is marked not ready *)
  | SafetyError                         (* the safety-filter text *)
  | GenericError (errorMessage : string).

(** [s.includes(searchString)] *)

Definition includes (s searchString : string) : bool :=
  bool_decide (is_Some (String.index 0 searchString s)).

Definition showError (parseError : string → option string) (message : string) :
    ErrorShown :=
  let errorMessage :=
    if decide (message = "") then "An unknown error occurred" else message in
  let errorMessage :=
    if includes errorMessage "{" || includes errorMessage "}"
    then default errorMessage (parseError errorMessage)
    else errorMessage in
  if includes errorMessage "API Key not found" then AuthError
  else if includes errorMessage "SAFETY" then SafetyError
  else GenericError errorMessage.

(** ** The preview timer (App.tsx)

    [prev => (prev + 1) % (generation.frames?.length || 1)], the update the
    interval applies to the preview index; [framesLength] is [None] when
    there are no frames yet. *)

Definition nextPreviewIndex (framesLength : option nat) (prev : nat) : nat :=
  let n := default 0%nat framesLength in
  ((prev + 1) `mod` (if decide (n = 0%nat) then 1 else n))%nat.

(** * Notions used in the statements

    Definitions that do not come from the source: what the loops compute,
    said without the loop, and the wording of the specification where a
    claim compares the code with it. *)

(** ** Chroma keying *)

(** The body of the keying loop, on the contents of the two buffers. *)
Definition keyPixel_list (orig : list Z) (i : nat) (new : list Z) : list Z :=
  if js_lt (orig !! (i + 3)%nat) 128 then
    <[(i + 3)%nat := 255]> (<[(i + 2)%nat := 255]> (<[(i + 1)%nat := 0]> (<[i := 255]> new)))
  else
    <[(i + 3)%nat := 255]>
      (<[(i + 2)%nat := to_uint8_clamped (orig !! (i + 2)%nat)]>
        (<[(i + 1)%nat := to_uint8_clamped (orig !! (i + 1)%nat)]>
          (<[i := to_uint8_clamped (orig !! i)]> new))).

(** The keying loop on a zero-filled buffer of the same length. *)
Definition keyed_list (orig : list Z) : list Z :=
  let n := length orig in
  for_loop 4 n 0 n (keyPixel_list orig) (replicate n 0).

(** What the keying does to one pixel. *)
Definition keyed (px : Z * Z * Z * Z) : Z * Z * Z * Z :=
  let '(r, g, b, a) := px in
  if bool_decide (a < 128) then (255, 0, 255, 255)
  else (to_uint8_clamped (Some r), to_uint8_clamped (Some g),
        to_uint8_clamped (Some b), 255).

(** A frame whose pixel buffer, if it has one, is in the store. *)
Definition frame_in_heap (h : heap) (frame : GeneratedFrame) : Prop :=
  ∀ pb, pixelBuffer frame = Some pb → pb ∈ dom h.

(** What gif.js is handed for a frame: for a frame that has a buffer and
    non-zero dimensions, the keyed copy of its buffer. *)
Definition gif_input {num : Type} `{!JsNumber num} (h : heap) (fps : num)
    (frame : GeneratedFrame) : option (list Z * Z * Z * num) :=
  match pixelBuffer frame, truthy (width frame), truthy (height frame) with
  | Some pb, Some w, Some ht =>
      Some (keyed_list (contents h pb), w, ht, (of_Z 1000 / fps)%js)
  | _, _, _ => None
  end.


(** ** Scaling and centring, as the specification words them

    One scale factor, applied to both axes, and the offsets that centre the
    scaled image. *)

Definition spec_scale {num : Type} `{!JsNumber num}
    (targetHeight : Z) (zoomFactor : num) (croppedHeight : Z) : num :=
  (of_Z targetHeight * lit_0_85 * zoomFactor / of_Z croppedHeight)%js.

Definition spec_scaledWidth {num : Type} `{!JsNumber num}
    (croppedWidth : Z) (scale : num) : num :=
  (of_Z croppedWidth * scale)%js.

Definition spec_scaledHeight {num : Type} `{!JsNumber num}
    (croppedHeight : Z) (scale : num) : num :=
  (of_Z croppedHeight * scale)%js.

Definition spec_destX {num : Type} `{!JsNumber num}
    (targetWidth : Z) (scaledWidth : num) : num :=
  ((of_Z targetWidth - scaledWidth) / of_Z 2)%js.

Definition spec_destY {num : Type} `{!JsNumber num}
    (targetHeight : Z) (scaledHeight : num) : num :=
  ((of_Z targetHeight - scaledHeight) / of_Z 2)%js.

(** ** The pixels the bounding box is taken over

    Pixel [p] of a [cw]-wide image is at column [p mod cw], row [p / cw].
    [survives] says that the pixel is outside the safety margin, is not
    background, and has alpha above 20. *)

Definition in_margin (cw ch p : nat) : bool :=
  let x := (p `mod` cw)%nat in
  let y := (p / cw)%nat in
  bool_decide (x < margin cw ∨ x > cw - margin cw ∨ y < margin ch ∨ y > ch - margin ch)%nat.

Definition is_white (data : list Z) (p : nat) : bool :=
  js_gt (data !! (4 * p)%nat) threshold
  && js_gt (data !! (4 * p + 1)%nat) threshold
  && js_gt (data !! (4 * p + 2)%nat) threshold.

Definition survives (cw ch : nat) (data : list Z) (p : nat) : bool :=
  negb (in_margin cw ch p) && negb (is_white data p)
  && js_gt (data !! (4 * p + 3)%nat) 20.

(** What holds of the scanning loop after the first [q] pixels. *)
Record scan_inv (cw ch : nat) (data : list Z) (q : nat) (s : Scan) : Prop := {
  inv_length : length (sdata s) = length data;
  inv_rest : ∀ j, (4 * q ≤ j ∨ j `mod` 4 ≠ 3)%nat → sdata s !! j = data !! j;
  inv_alpha : ∀ p, (p < q)%nat →
    js_gt (sdata s !! (4 * p + 3)%nat) 20 = survives cw ch data p;
  inv_found : foundPixel s = true ↔ ∃ p, (p < q)%nat ∧ survives cw ch data p = true;
  inv_box : ∀ p, (p < q)%nat → survives cw ch data p = true →
    (minX s ≤ p `mod` cw ≤ maxX s)%nat ∧ (minY s ≤ p / cw ≤ maxY s)%nat;
  inv_minX : minX s = cw ∨
    ∃ p, (p < q)%nat ∧ survives cw ch data p = true ∧ (p `mod` cw)%nat = minX s;
  inv_maxX : maxX s = 0%nat ∨
    ∃ p, (p < q)%nat ∧ survives cw ch data p = true ∧ (p `mod` cw)%nat = maxX s;
  inv_minY : minY s = ch ∨
    ∃ p, (p < q)%nat ∧ survives cw ch data p = true ∧ (p / cw)%nat = minY s;
  inv_maxY : maxY s = 0%nat ∨
    ∃ p, (p < q)%nat ∧ survives cw ch data p = true ∧ (p / cw)%nat = maxY s
}.

(** ** The schedule of the generator

    The order of checks and calls the specification describes: batches of
    three, a check of the cancellation token before each batch and one
    after it. *)

Inductive Step :=
  | Check
  | Call (j : nat).

Definition step_of (e : Event) : Step :=
  match e with
  | ReadAborted _ => Check
  | CallGenerate j => Call j
  end.

Definition batch_indices (i count : nat) : list nat :=
  seq i ((i + batchSize) `min` count - i)%nat.

Fixpoint schedule_from (nbatches : nat) (i count : nat) : list Step :=
  match nbatches with
  | O => []
  | S n =>
      if decide (i < count)%nat
      then Check :: (Call <$> batch_indices i count)
             ++ Check :: schedule_from n (i + batchSize)%nat count
      else []
  end.

Definition schedule (count : nat) : list Step := schedule_from count 0 count.

(** The result of request [j] of this run. *)
Definition frame_result (rm : Remote) (imageBase64 mimeType prompt : string)
    (count : nat) (j : nat) : result string :=
  generateSingleFrame rm imageBase64 mimeType prompt j count.

(** ** The scan, said without the loop *)

(** Sample [j] of the data after the scanning loop, said without the loop:
    an alpha sample of a pixel in the safety margin or of a background
    pixel is 0, every other sample is as it was. *)
Definition cleaned_sample (cw ch : nat) (data : list Z) (j : nat) : option Z :=
  if bool_decide (j `mod` 4 = 3)%nat
     && (in_margin cw ch (j / 4) || is_white data (j / 4))
  then (λ _, 0) <$> data !! j
  else data !! j.

(** ** What normalisation makes of one image

    The canvas [onload] draws for an image and its PNG export, when the
    image has a surviving pixel and every browser call succeeds. *)

Definition normalized {num : Type} `{!JsNumber num} (br : Browser num) (img : Image)
    (targetWidth targetHeight : Z) (zoom : num) : option (list Z * Blob) :=
  if getContext2d br targetWidth targetHeight then
    processed ← processFrameData br img targetWidth targetHeight;
    let canvas :=
      drawImage br processed
        (placement (cwidth processed) (cheight processed) targetWidth targetHeight zoom)
        targetWidth targetHeight in
    blob ← toBlob br canvas targetWidth targetHeight;
    Some (canvas, blob)
  else None.

Definition normalized_at {num : Type} `{!JsNumber num} (br : Browser num)
    (imageUrls : list string) (targetWidth targetHeight : Z) (zoom : num) (i : nat) :
    option (list Z * Blob) :=
  (imageUrls !! i ≫= loadImage br) ≫= λ img,
    normalized br img targetWidth targetHeight zoom.

(** The indices below [n] whose image yields a frame, with canvas and PNG. *)
Definition survivors {num : Type} `{!JsNumber num} (br : Browser num)
    (imageUrls : list string) (targetWidth targetHeight : Z) (zoom : num) (n : nat) :
    list (nat * (list Z * Blob)) :=
  omap (λ j, (λ cb, (j, cb)) <$> normalized_at br imageUrls targetWidth targetHeight zoom j)
       (seq 0 n).

(** Frame [f], in store [h'], is the frame of survivor [s]; its buffer is
    not one of the store [h] the run started in. *)
Definition frame_of_survivor {num : Type} (br : Browser num) (h h' : heap)
    (targetWidth targetHeight : Z) (s : nat * (list Z * Blob)) (f : GeneratedFrame) : Prop :=
  ∃ pb,
    f = mkFrame s.2.2 (createObjectURL br s.2.2) s.1 (Some pb)
                (Some targetWidth) (Some targetHeight) ∧
    h' !! pb = Some s.2.1 ∧ pb ∉ dom h.

(** ** Encoders *)

(** A frame whose buffer, when [createGif] takes the frame, holds exactly
    width x height pixels, at least one. *)
Definition frame_fits (h : heap) (frame : GeneratedFrame) : Prop :=
  match pixelBuffer frame, truthy (width frame), truthy (height frame) with
  | Some pb, Some w, Some ht =>
      0 < w ∧ 0 < ht ∧ Z.of_nat (length (contents h pb)) = 4 * w * ht
  | _, _, _ => True
  end.

(** The name [createZip] gives the file of the frame at position [index]. *)
Definition zip_name (index : nat) : string :=
  "frame_" +:+ padStart 2 "0" (pretty (index + 1)%nat) +:+ ".png".

(** Sorting by name, as an archive listing does: code unit by code unit. *)
Definition name_lt (a b : string) : Prop := String.compare a b = Lt.

(** ** Runs of the generator *)

(** The frame indices requested in a trace, in the order of the calls. *)
Definition calls_of (tr : list Event) : list nat :=
  omap (λ e, match e with CallGenerate j => Some j | ReadAborted _ => None end) tr.

(** A cancellation token that is never aborted, or no token at all. *)
Definition never_aborted (signal : option (nat → bool)) : Prop :=
  ∀ n, from_option (λ s, s n) false signal = false.

(** ** What the user is shown *)

(** What the user is shown for the outcome of a run: the rest of the
    [catch] applied to the message of a failed run. *)
Definition displayed (parseError : string → option string) (status : RunStatus) :
    option ErrorShown :=
  match status with
  | Failed errorMessage => Some (showError parseError errorMessage)
  | Completed _ | Cancelled => None
  end.

Definition key_missing : string := "API Key not found. Please select an API Key.".

(** The error of a request the model stopped for safety. *)
Definition safety_stop : string := "Model stopped generation: " +:+ "SAFETY".

(** * Example data

    A store with one frame, encoders that concatenate what they are given,
    a few small images with a browser that serves them, and remote models
    that answer every request with an image unless told to refuse one. *)

Definition demo_buffer : list Z := [10; 20; 30; 200; 250; 250; 250; 5].

Definition demo_heap : heap := {[ 0%nat := demo_buffer ]}.

Definition demo_frame : GeneratedFrame :=
  mkFrame [137; 80; 78; 71] "blob:frame-0" 0 (Some 0%nat) (Some 2) (Some 1).

Definition demo_encoders : Encoders Qc :=
  mkEncoders Qc
    (Some (λ buffers w ht cnum delays, Ok (concat buffers)))
    (Some (λ config added, Ok (concat ((λ f, f.1.1.1) <$> added))))
    (Ok "blob:gif.worker.js")
    (Some (λ folder files, Ok (concat (snd <$> files)))).

Definition solid (w ht : nat) (px : list Z) : Image :=
  mkImage w ht (concat (replicate (w * ht) px)).

(** A 3 x 3 image, every pixel opaque black. *)
Definition black3 : Image := solid 3 3 [0; 0; 0; 255].

(** A 2 x 2 image, every pixel opaque with red = green = blue = 240. *)
Definition grey240 : Image := solid 2 2 [240; 240; 240; 255].

(** A 2 x 2 image whose pixels all have red, green and blue above 240. *)
Definition white2 : Image := solid 2 2 [241; 250; 255; 255].

(** A 3 x 3 white image with one opaque black pixel in the middle. *)
Definition dot3 : Image :=
  mkImage 3 3 (concat (replicate 4 [255; 255; 255; 255]) ++ [0; 0; 0; 255]
               ++ concat (replicate 4 [255; 255; 255; 255])).

(** A 3 x 3 white image whose middle row is opaque black. *)
Definition row3 : Image :=
  mkImage 3 3 (concat (replicate 3 [255; 255; 255; 255])
               ++ concat (replicate 3 [0; 0; 0; 255])
               ++ concat (replicate 3 [255; 255; 255; 255])).

Definition demo_browser : Browser Qc :=
  mkBrowser Qc
    (λ url, if decide (url = "blob:black3") then Some black3
            else if decide (url = "blob:dot3") then Some dot3
            else if decide (url = "blob:row3") then Some row3
            else if decide (url = "blob:grey240") then Some grey240
            else if decide (url = "blob:white2") then Some white2
            else None)
    (λ w ht, true)
    (λ crop args w ht, image crop)
    (λ canvas w ht, Some canvas)
    (λ blob, "blob:frame").

Definition image_response (payload : string) : Response :=
  mkResponse [mkCandidate (Some "STOP")
                [mkPart None (Some (mkInlineData (Some payload) (Some "image/png")))]].

Definition safety_response : Response :=
  mkResponse [mkCandidate (Some "SAFETY") []].

(** Every request is answered with an image, except the one for the frame
    index [refused], which the model stops for safety. Requests settle in
    the order they were made. *)
Definition demo_remote (refused : option nat) : Remote :=
  mkRemote (Some "key")
    (λ j req, if decide (refused = Some j) then Ok safety_response
              else Ok (image_response (pretty j)))
    (λ base64Image resultMime, Ok ("blob:" +:+ base64Image))
    (λ j, j).

(** Every request is answered with the image [black3]. *)
Definition black3_remote : Remote :=
  mkRemote (Some "key") (λ j req, Ok (image_response "black3"))
    (λ base64Image resultMime, Ok ("blob:" +:+ base64Image)) (λ j, j).

Definition demo_config : UserConfig Qc := mkUserConfig Qc "wave" (Qc_of_Z 8) 2 1%Qc.

(** A browser like [demo_browser] whose canvas data has the size of the
    canvas: whatever is drawn, [getImageData] gives a transparent canvas. *)
Definition blank_browser : Browser Qc :=
  mkBrowser Qc (loadImage demo_browser) (getContext2d demo_browser)
    (λ crop args w ht, replicate (Z.to_nat (4 * w * ht)) 0)
    (toBlob demo_browser) (createObjectURL demo_browser).

(** A frame like [demo_frame] that claims three pixels for a buffer of two. *)
Definition wide_frame : GeneratedFrame :=
  mkFrame (blob demo_frame) (dataUrl demo_frame) 1 (Some 0%nat) (Some 3) (Some 1).

(** A remote like [demo_remote] in an environment whose API key is empty. *)
Definition keyless_remote : Remote :=
  mkRemote (Some "") (generateContent (demo_remote None))
    (toObjectURL (demo_remote None)) (settles (demo_remote None)).

(** * Proofs *)

Section loops.
Context {St : Type}.

Lemma for_loop_inv (P : nat → St → Prop) step fuel i bound
    (body : nat → St → St) s :
  (0 < step)%nat →
  (bound - i ≤ fuel)%nat →
  P i s →
  (∀ k s, (k < bound)%nat → P k s → P (k + step)%nat (body k s)) →
  ∃ k, (bound ≤ k)%nat ∧ P k (for_loop step fuel i bound body s).
Proof.
  intros Hstep Hfuel Hi Hbody.
  revert i s Hfuel Hi.
  induction fuel as [|fuel IH]; intros i s Hfuel Hi; simpl.
  - exists i. split; [lia|done].
  - case_decide as Hlt.
    + apply IH; [lia|]. by apply Hbody.
    + exists i. split; [lia|done].
Qed.

Lemma for_loop_more_fuel step fuel fuel' i bound (body : nat → St → St) s :
  (0 < step)%nat →
  (bound - i ≤ fuel)%nat → (bound - i ≤ fuel')%nat →
  for_loop step fuel i bound body s = for_loop step fuel' i bound body s.
Proof.
  intros Hstep. revert fuel' i s.
  induction fuel as [|fuel IH]; intros fuel' i s Hf Hf'.
  - destruct fuel' as [|fuel']; simpl; [done|].
    case_decide; [lia|done].
  - destruct fuel' as [|fuel']; simpl.
    + case_decide; [lia|done].
    + case_decide; [|done]. apply IH; lia.
Qed.
End loops.

(** ** Chroma keying *)

Section chroma.
Implicit Types (h : heap) (orig cur : list Z) (pb nb : loc).

Lemma view_set_insert h nb cur i v :
  view_set (<[nb := cur]> h) nb i v = <[nb := <[i := to_uint8_clamped v]> cur]> h.
Proof. unfold view_set. by rewrite alter_insert_eq. Qed.

Lemma view_get_insert_ne h nb pb cur i :
  nb ≠ pb → view_get (<[nb := cur]> h) pb i = contents h pb !! i.
Proof.
  intros Hne. unfold view_get, contents. rewrite lookup_insert_ne by done.
  by destruct (h !! pb).
Qed.

Lemma keyPixel_insert h pb nb cur i :
  nb ≠ pb →
  keyPixel pb nb i (<[nb := cur]> h) = <[nb := keyPixel_list (contents h pb) i cur]> h.
Proof.
  intros Hne. unfold keyPixel, keyPixel_list.
  rewrite !view_get_insert_ne by done.
  destruct (js_lt _ 128); by rewrite !view_set_insert.
Qed.

Lemma key_loop_insert h pb nb fuel i bound cur :
  nb ≠ pb →
  for_loop 4 fuel i bound (keyPixel pb nb) (<[nb := cur]> h)
  = <[nb := for_loop 4 fuel i bound (keyPixel_list (contents h pb)) cur]> h.
Proof.
  intros Hne. revert i cur.
  induction fuel as [|fuel IH]; intros i cur; simpl; [done|].
  case_decide; [|done]. by rewrite keyPixel_insert, IH.
Qed.

Lemma view_length_contents h pb : view_length h pb = length (contents h pb).
Proof. unfold view_length, contents. by destruct (h !! pb). Qed.

Lemma view_length_insert_ne h nb pb cur :
  nb ≠ pb → view_length (<[nb := cur]> h) pb = view_length h pb.
Proof. intros Hne. unfold view_length. by rewrite lookup_insert_ne. Qed.

(** [magentaKey] allocates one fresh buffer and writes nowhere else. *)
Lemma magentaKey_eq h pb :
  magentaKey pb h =
    (fresh (dom h), <[fresh (dom h) := keyed_list (contents h pb)]> h).
Proof.
  unfold magentaKey, alloc, keyed_list. f_equal.
  pose proof (is_fresh (dom h)) as Hfresh.
  destruct (h !! pb) as [orig|] eqn:Hpb.
  - assert (fresh (dom h) ≠ pb) as Hne.
    { intros Heq. apply Hfresh. rewrite Heq. apply elem_of_dom. eauto. }
    rewrite !view_length_insert_ne by done.
    rewrite key_loop_insert by done.
    by rewrite view_length_contents.
  - assert (contents h pb = []) as -> by (unfold contents; by rewrite Hpb).
    assert (view_length h pb = 0%nat) as -> by (unfold view_length; by rewrite Hpb).
    simpl.
    destruct (decide (fresh (dom h) = pb)) as [Heq|Hne].
    + rewrite <- Heq. unfold view_length. by rewrite lookup_insert_eq.
    + rewrite view_length_insert_ne by done.
      unfold view_length. by rewrite Hpb.
Qed.
End chroma.

Section chroma_pixels.
Implicit Types (orig cur : list Z).

Lemma pixel_at_Some cur p r g b a :
  pixel_at cur p = Some (r, g, b, a) ↔
  cur !! (4 * p)%nat = Some r ∧ cur !! (4 * p + 1)%nat = Some g ∧
  cur !! (4 * p + 2)%nat = Some b ∧ cur !! (4 * p + 3)%nat = Some a.
Proof.
  unfold pixel_at. split.
  - intros H. by simplify_option_eq.
  - by intros (-> & -> & -> & ->).
Qed.

Lemma pixel_at_write cur q r g b a p :
  (4 * q + 3 < length cur)%nat →
  pixel_at (<[(4 * q + 3)%nat := a]> (<[(4 * q + 2)%nat := b]>
             (<[(4 * q + 1)%nat := g]> (<[(4 * q)%nat := r]> cur)))) p
  = if decide (p = q) then Some (r, g, b, a) else pixel_at cur p.
Proof.
  intros Hlen. case_decide as Hp.
  - subst p. apply pixel_at_Some.
    repeat split;
      repeat (rewrite list_lookup_insert_ne by lia);
      apply list_lookup_insert_eq; rewrite ?length_insert; lia.
  - unfold pixel_at. by repeat (rewrite list_lookup_insert_ne by lia).
Qed.

Lemma pixel_at_is_Some cur p :
  (4 * p + 3 < length cur)%nat → is_Some (pixel_at cur p).
Proof.
  intros Hlen. unfold pixel_at.
  destruct (lookup_lt_is_Some_2 cur (4 * p)%nat) as [r ->]; [lia|].
  destruct (lookup_lt_is_Some_2 cur (4 * p + 1)%nat) as [g ->]; [lia|].
  destruct (lookup_lt_is_Some_2 cur (4 * p + 2)%nat) as [b ->]; [lia|].
  destruct (lookup_lt_is_Some_2 cur (4 * p + 3)%nat) as [a ->]; [lia|].
  simpl. eauto.
Qed.

Lemma keyPixel_list_other orig cur q p :
  p ≠ q →
  pixel_at (keyPixel_list orig (4 * q) cur) p = pixel_at cur p.
Proof.
  intros Hne. unfold keyPixel_list, pixel_at.
  destruct (js_lt _ _); by repeat (rewrite list_lookup_insert_ne by lia).
Qed.

Lemma keyPixel_list_same orig cur q :
  length cur = length orig →
  (4 * q + 3 < length orig)%nat →
  pixel_at (keyPixel_list orig (4 * q) cur) q = keyed <$> pixel_at orig q.
Proof.
  intros Hlen Hq.
  destruct (pixel_at_is_Some orig q Hq) as [[[[r g] b] a] Hpx].
  rewrite Hpx.
  change (keyed <$> Some (r, g, b, a)) with (Some (keyed (r, g, b, a))).
  apply pixel_at_Some in Hpx as (Hr & Hg & Hb & Ha).
  unfold keyPixel_list, js_lt, keyed. rewrite Hr, Hg, Hb, Ha.
  destruct (bool_decide (a < 128));
    (rewrite pixel_at_write by lia); by case_decide.
Qed.

Lemma keyPixel_list_length orig cur i :
  length (keyPixel_list orig i cur) = length cur.
Proof.
  unfold keyPixel_list. destruct (js_lt _ _); by rewrite !length_insert.
Qed.

(** Every whole pixel of the buffer is keyed. *)
Lemma keyed_list_pixel orig p :
  (4 * p + 3 < length orig)%nat →
  pixel_at (keyed_list orig) p = keyed <$> pixel_at orig p.
Proof.
  intros Hp. unfold keyed_list.
  set (n := length orig).
  destruct (for_loop_inv
    (λ i cur, length cur = n ∧
              ∃ q, i = (4 * q)%nat ∧
                   ∀ p', (p' < q)%nat → (4 * p' + 3 < n)%nat →
                         pixel_at cur p' = keyed <$> pixel_at orig p')
    4 n 0 n (keyPixel_list orig) (replicate n 0))
    as (k & Hk & Hlen & q & -> & Hall).
  - lia.
  - lia.
  - split; [by rewrite length_replicate|]. exists 0%nat. split; [done|]. lia.
  - intros k cur Hlt (Hlen & q & -> & Hall). split.
    + by rewrite keyPixel_list_length.
    + exists (S q). split; [lia|]. intros p' Hp' Hin.
      destruct (decide (p' = q)) as [->|Hne].
      * by apply keyPixel_list_same.
      * rewrite keyPixel_list_other by done. apply Hall; lia.
  - apply Hall; lia.
Qed.

Lemma keyed_list_length orig : length (keyed_list orig) = length orig.
Proof.
  unfold keyed_list. set (n := length orig).
  destruct (for_loop_inv (λ _ cur, length cur = n)
    4 n 0 n (keyPixel_list orig) (replicate n 0)) as (k & _ & Hlen);
    [lia|lia|by rewrite length_replicate| |done].
  intros k cur _ <-. apply keyPixel_list_length.
Qed.
End chroma_pixels.

(** ** [createGif] and the buffers of the frames *)

Section gif.
Context {num : Type} `{!JsNumber num}.
Implicit Types (h : heap) (frames : list GeneratedFrame) (fps : num).

Lemma magentaKey_subseteq h pb : h ⊆ (magentaKey pb h).2.
Proof.
  rewrite magentaKey_eq. simpl. apply insert_subseteq.
  apply not_elem_of_dom, is_fresh.
Qed.

Lemma contents_subseteq h h' l : h ⊆ h' → l ∈ dom h → contents h' l = contents h l.
Proof.
  intros Hsub [buf Hl]%elem_of_dom. unfold contents.
  by rewrite (lookup_weaken _ _ _ _ Hl Hsub), Hl.
Qed.

Lemma frame_in_heap_weaken h h' frame :
  h ⊆ h' → frame_in_heap h frame → frame_in_heap h' frame.
Proof.
  intros Hsub Hin pb Hpb. eapply elem_of_weaken; [by apply Hin|].
  by apply subseteq_dom.
Qed.

Lemma addFrames_cons h frame rest fps gif :
  addFrames h (frame :: rest) fps gif =
    match pixelBuffer frame, truthy (width frame), truthy (height frame) with
    | Some pb, Some w, Some ht =>
        match new_ImageData (magentaKey pb h).2 (magentaKey pb h).1 w ht with
        | Err e => ((magentaKey pb h).2, Err e)
        | Ok finalImageData =>
            addFrames (magentaKey pb h).2 rest fps
              (gif ++ [(finalImageData, (of_Z 1000 / fps)%js)])
        end
    | _, _, _ => addFrames h rest fps gif
    end.
Proof.
  cbn [addFrames]. destruct (pixelBuffer frame); [|done].
  by destruct (magentaKey _ h).
Qed.

Lemma addFrames_subseteq h frames fps gif :
  h ⊆ (addFrames h frames fps gif).1.
Proof.
  revert h gif. induction frames as [|frame rest IH]; intros h gif; [done|].
  rewrite addFrames_cons.
  destruct (pixelBuffer frame) as [pb|]; [|apply IH].
  destruct (truthy (width frame)) as [w|]; [|apply IH].
  destruct (truthy (height frame)) as [ht|]; [|apply IH].
  pose proof (magentaKey_subseteq h pb) as Hsub.
  destruct (magentaKey pb h) as [nb h1]. simpl in *.
  destruct (new_ImageData h1 nb w ht) as [img|e]; simpl; [|done].
  etrans; [exact Hsub|apply IH].
Qed.

Lemma addFrames_rendered h frames fps gif h' gif' :
  Forall (frame_in_heap h) frames →
  Forall (λ f, data f.1 ∈ dom h) gif →
  addFrames h frames fps gif = (h', Ok gif') →
  frameData h' <$> gif' = (frameData h <$> gif) ++ omap (gif_input h fps) frames.
Proof.
  revert h gif. induction frames as [|frame rest IH]; intros h gif Hframes Hgif.
  - simpl. intros [= <- <-]. by rewrite app_nil_r.
  - apply Forall_cons_1 in Hframes as [Hframe Hrest].
    rewrite addFrames_cons. cbn [omap list_omap].
    unfold gif_input at 1.
    destruct (pixelBuffer frame) as [pb|] eqn:Hpb; [|by apply IH].
    destruct (truthy (width frame)) as [w|]; [|by apply IH].
    destruct (truthy (height frame)) as [ht|]; [|by apply IH].
    pose proof (magentaKey_subseteq h pb) as Hsub.
    rewrite magentaKey_eq in *. simpl in Hsub.
    set (nb := fresh (dom h)) in *.
    set (h1 := <[nb := keyed_list (contents h pb)]> h) in *.
    unfold new_ImageData. case_decide; [|done].
    intros Hadd. apply IH in Hadd.
    + rewrite Hadd, fmap_app. simpl. rewrite <- app_assoc. simpl.
      f_equal; [|f_equal].
      * apply list_fmap_ext. intros i f Hf. unfold frameData.
        rewrite (contents_subseteq h h1); [done|done|].
        eapply Forall_lookup_1 in Hgif; [|done]. done.
      * unfold frameData. simpl. f_equal. f_equal. f_equal.
        unfold contents, h1. by rewrite lookup_insert_eq.
      * apply list_omap_ext, Forall_Forall2_diag.
        eapply Forall_impl; [|exact Hrest].
        intros f Hf. unfold gif_input.
        destruct (pixelBuffer f) as [pb'|] eqn:Hpb'; [|done].
        simpl. rewrite (contents_subseteq h h1); [done|done|by apply Hf].
    + eapply Forall_impl; [|exact Hrest]. intros f. by apply frame_in_heap_weaken.
    + apply Forall_app. split.
      * eapply Forall_impl; [|exact Hgif]. intros f Hf.
        eapply elem_of_weaken; [exact Hf|]. by apply subseteq_dom.
      * apply Forall_singleton. simpl. apply elem_of_dom. unfold h1.
        rewrite lookup_insert_eq. eauto.
Qed.
End gif.

Section gif_theorems.
Context {num : Type} `{!JsNumber num}.
Implicit Types (h : heap) (frames : list GeneratedFrame) (fps : num).

Lemma createGif_subseteq (env : Encoders num) h frames fps :
  h ⊆ (createGif env h frames fps).1.
Proof.
  unfold createGif.
  destruct (GIF_render env) as [render|]; [|done].
  destruct (fetch_worker env) as [workerUrl|e]; [|done].
  destruct (frames !! 0%nat) as [frame0|]; [|done].
  pose proof (addFrames_subseteq h frames fps []) as Hsub.
  destruct (addFrames h frames fps []) as [h' [gif|e]]; done.
Qed.

(** When the encoder is reached, it renders exactly the keyed copies of
    the frames' buffers, in order. *)
Lemma createGif_renders (env : Encoders num) h frames fps render workerUrl frame0 h' gif :
  Forall (frame_in_heap h) frames →
  GIF_render env = Some render →
  fetch_worker env = Ok workerUrl →
  frames !! 0%nat = Some frame0 →
  addFrames h frames fps [] = (h', Ok gif) →
  createGif env h frames fps =
    (h', render (mkGifConfig 2 10 (width frame0) (height frame0) workerUrl 0xFF00FF)
                (omap (gif_input h fps) frames)).
Proof.
  intros Hframes Hrender Hfetch Hframe0 Hadd.
  unfold createGif. rewrite Hrender, Hfetch, Hframe0, Hadd.
  by rewrite (addFrames_rendered h frames fps [] h' gif).
Qed.

Lemma keyed_transparent r g b a :
  a < 128 → keyed (r, g, b, a) = (255, 0, 255, 255).
Proof. intros Ha. unfold keyed. by rewrite bool_decide_eq_true_2. Qed.

Lemma keyed_opaque r g b a :
  128 ≤ a → 0 ≤ r ≤ 255 → 0 ≤ g ≤ 255 → 0 ≤ b ≤ 255 →
  keyed (r, g, b, a) = (r, g, b, 255).
Proof.
  intros Ha Hr Hg Hb. unfold keyed, to_uint8_clamped.
  rewrite bool_decide_eq_false_2 by lia.
  repeat f_equal; lia.
Qed.

Lemma magentaKey_heap_pixel h pb buf p :
  h !! pb = Some buf →
  (4 * p + 3 < length buf)%nat →
  heap_pixel (magentaKey pb h).2 (magentaKey pb h).1 p = keyed <$> pixel_at buf p.
Proof.
  intros Hpb Hp. rewrite magentaKey_eq. unfold heap_pixel. simpl.
  rewrite lookup_insert_eq. simpl.
  assert (contents h pb = buf) as -> by (unfold contents; by rewrite Hpb).
  by apply keyed_list_pixel.
Qed.

Lemma pixel_at_lt (buf : list Z) p px :
  pixel_at buf p = Some px → (4 * p + 3 < length buf)%nat.
Proof.
  destruct px as [[[r g] b] a]. intros (_ & _ & _ & Ha)%pixel_at_Some.
  by apply lookup_lt_Some in Ha.
Qed.
End gif_theorems.

(** Claim C1. In the keyed copy that [createGif] builds of a frame's pixel
    buffer, every pixel whose alpha is below 128 is exactly (255, 0, 255, 255),
    and every pixel whose alpha is at least 128 and whose red, green and blue
    lie in [0, 240) keeps its colour, with alpha 255. *)
Theorem magentaKey_pixels (h : heap) (pb : loc) (buf : list Z) (p : nat) (r g b a : Z) :
  h !! pb = Some buf →
  pixel_at buf p = Some (r, g, b, a) →
  (a < 128 →
     heap_pixel (magentaKey pb h).2 (magentaKey pb h).1 p = Some (255, 0, 255, 255)) ∧
  (128 ≤ a → 0 ≤ r < 240 → 0 ≤ g < 240 → 0 ≤ b < 240 →
     heap_pixel (magentaKey pb h).2 (magentaKey pb h).1 p = Some (r, g, b, 255)).
Proof.
  intros Hpb Hpx.
  rewrite (magentaKey_heap_pixel h pb buf p Hpb (pixel_at_lt _ _ _ Hpx)), Hpx.
  split.
  - intros Ha. cbn [fmap option_fmap option_map].
    by rewrite keyed_transparent.
  - intros Ha Hr Hg Hb. cbn [fmap option_fmap option_map].
    by rewrite keyed_opaque by lia.
Qed.

Lemma magentaKey_pixels_witness :
  (demo_heap !! 0%nat = Some demo_buffer ∧
   pixel_at demo_buffer 1 = Some (250, 250, 250, 5)) ∧
  (demo_heap !! 0%nat = Some demo_buffer ∧
   pixel_at demo_buffer 0 = Some (10, 20, 30, 200)) ∧
  heap_pixel (magentaKey 0%nat demo_heap).2 (magentaKey 0%nat demo_heap).1 1
    = Some (255, 0, 255, 255) ∧
  heap_pixel (magentaKey 0%nat demo_heap).2 (magentaKey 0%nat demo_heap).1 0
    = Some (10, 20, 30, 255).
Proof.
  split; [split; reflexivity|]. split; [split; reflexivity|]. split.
  - apply (magentaKey_pixels demo_heap 0%nat demo_buffer 1 250 250 250 5);
      [reflexivity|reflexivity|lia].
  - apply (magentaKey_pixels demo_heap 0%nat demo_buffer 0 10 20 30 200);
      [reflexivity|reflexivity|lia|lia|lia|lia].
Defined.

Section apng_after_gif.
Context {num : Type} `{!JsNumber num}.

Lemma createApng_heap_ext (env : Encoders num) (h h' : heap) frames (fps : num) :
  h ⊆ h' →
  Forall (frame_in_heap h) frames →
  createApng env h' frames fps = createApng env h frames fps.
Proof.
  intros Hsub Hframes. unfold createApng.
  destruct (UPNG_encode env) as [encode|]; [|done].
  case_decide; [done|].
  assert (contents h' <$> omap pixelBuffer frames
          = contents h <$> omap pixelBuffer frames) as ->; [|done].
  clear -Hsub Hframes.
  induction Hframes as [|frame rest Hframe _ IH]; [done|].
  cbn [omap list_omap]. destruct (pixelBuffer frame) as [pb|] eqn:Hpb; [|done].
  cbn [fmap list_fmap]. f_equal; [|exact IH].
  apply contents_subseteq; [done|]. by apply Hframe.
Qed.
End apng_after_gif.

(** Claim C9. [createGif] writes only to buffers it allocates itself: every
    buffer of the store it is started in has the same contents afterwards,
    so [createApng] over the same frames returns the same result whether it
    runs before or after [createGif]. *)
Theorem createGif_preserves_buffers {num : Type} `{!JsNumber num}
    (env : Encoders num) (h : heap) (frames : list GeneratedFrame) (fps fps' : num) :
  Forall (frame_in_heap h) frames →
  (∀ l, l ∈ dom h → (createGif env h frames fps).1 !! l = h !! l) ∧
  createApng env (createGif env h frames fps).1 frames fps'
    = createApng env h frames fps'.
Proof.
  intros Hframes.
  pose proof (createGif_subseteq env h frames fps) as Hsub. split.
  - intros l [buf Hl]%elem_of_dom. rewrite Hl.
    by apply (lookup_weaken _ _ _ _ Hl).
  - by apply createApng_heap_ext.
Qed.

Lemma createGif_preserves_buffers_witness :
  Forall (frame_in_heap demo_heap) [demo_frame] ∧
  (∀ l, l ∈ dom demo_heap →
        (createGif demo_encoders demo_heap [demo_frame] (Qc_of_Z 8)).1 !! l
        = demo_heap !! l) ∧
  createApng demo_encoders
      (createGif demo_encoders demo_heap [demo_frame] (Qc_of_Z 8)).1
      [demo_frame] (Qc_of_Z 8)
    = createApng demo_encoders demo_heap [demo_frame] (Qc_of_Z 8).
Proof.
  assert (Forall (frame_in_heap demo_heap) [demo_frame]) as Hframes.
  { apply Forall_singleton. intros pb [= <-].
    apply elem_of_dom. by exists demo_buffer. }
  split; [exact Hframes|].
  exact (createGif_preserves_buffers demo_encoders demo_heap [demo_frame]
           (Qc_of_Z 8) (Qc_of_Z 8) Hframes).
Defined.

(** ** The encoders on an empty frame sequence *)

Example createZip_names :
  createZip (mkEncoders Qc None None (Err "")
               (Some (λ folder files, Err (folder +:+ "/" +:+ from_option fst "" (list.last files)))))
            (replicate 10 demo_frame)
  = Err "frames/frame_10.png".
Proof. reflexivity. Qed.

Example createApng_delay :
  createApng (mkEncoders Qc (Some (λ buffers w ht cnum delays,
                                     if decide (delays = [Qc_of_Z 125]) then Ok [] else Err ""))
                         None (Err "") None)
             demo_heap [demo_frame] (Qc_of_Z 8)
  = Ok [].
Proof. vm_compute. reflexivity. Qed.

(** As the claim is worded, all three encoders would fail on an empty
    sequence: [createZip] does not. *)
Lemma createZip_empty_succeeds :
  ¬ (is_Err (createApng demo_encoders demo_heap [] (Qc_of_Z 8)) ∧
     is_Err (createGif demo_encoders demo_heap [] (Qc_of_Z 8)).2 ∧
     is_Err (createZip demo_encoders [])).
Proof. intros (_ & _ & Hzip). exact Hzip. Qed.

(** Claim C6, as the code has it. On an empty frame sequence [createApng]
    fails with an error, and so does [createGif], which leaves the store as
    it was; [createZip] has no such check and hands the archive writer an
    empty file list, returning whatever the writer produces. In the run,
    APNG encoding comes first and its failure ends the encoding phase
    before the GIF and ZIP encoders are called: no artifact is produced. *)
Theorem encoders_on_empty_sequence {num : Type} `{!JsNumber num}
    (env : Encoders num) (h : heap) (fps : num) :
  is_Err (createApng env h [] fps) ∧
  is_Err (createGif env h [] fps).2 ∧
  (createGif env h [] fps).1 = h ∧
  createZip env [] =
    match JSZip_generate env with
    | None => Err "JSZip library not loaded"
    | Some generateAsync => generateAsync "frames" []
    end ∧
  (encodeArtifacts env h [] fps).1 = h ∧
  is_Err (encodeArtifacts env h [] fps).2.
Proof.
  assert (is_Err (createApng env h [] fps)) as Hapng.
  { unfold createApng. by destruct (UPNG_encode env). }
  repeat split.
  - exact Hapng.
  - unfold createGif. destruct (GIF_render env); [|done].
    by destruct (fetch_worker env).
  - unfold createGif. destruct (GIF_render env); [|done].
    by destruct (fetch_worker env).
  - unfold encodeArtifacts. by destruct (createApng env h [] fps).
  - unfold encodeArtifacts. by destruct (createApng env h [] fps).
Qed.

(** ** The frames that survive normalisation *)

Section normalizer_indices.
Context {num : Type} `{!JsNumber num}.
Implicit Types (br : Browser num) (h : heap) (frames : list GeneratedFrame).

Lemma onload_index br h i img targetWidth targetHeight (zoom : num) h' frame :
  onload br h i img targetWidth targetHeight zoom = (h', Some frame) →
  index frame = i ∧ width frame = Some targetWidth ∧ height frame = Some targetHeight.
Proof.
  unfold onload.
  destruct (getContext2d br targetWidth targetHeight); [|done].
  destruct (processFrameData br img targetWidth targetHeight) as [processed|]; [|done].
  destruct (toBlob br _ targetWidth targetHeight) as [blob|]; [|done].
  by intros [= _ <-].
Qed.



End normalizer_indices.


(** ** Scaling and centring *)

Section spec_geometry.
Context {num : Type} `{!JsNumber num}.

Lemma placement_spec (croppedWidth croppedHeight targetWidth targetHeight : Z) (zoom : num) :
  let scale := spec_scale targetHeight zoom croppedHeight in
  placement croppedWidth croppedHeight targetWidth targetHeight zoom
  = mkDrawArgs 0 0 croppedWidth croppedHeight
      (spec_destX targetWidth (spec_scaledWidth croppedWidth scale))
      (spec_destY targetHeight (spec_scaledHeight croppedHeight scale))
      (spec_scaledWidth croppedWidth scale)
      (spec_scaledHeight croppedHeight scale).
Proof. reflexivity. Qed.

Lemma onload_Some (br : Browser num) h i img targetWidth targetHeight (zoom : num) h' frame :
  onload br h i img targetWidth targetHeight zoom = (h', Some frame) →
  ∃ processed blob,
    processFrameData br img targetWidth targetHeight = Some processed ∧
    toBlob br (drawImage br processed
                 (placement (cwidth processed) (cheight processed)
                            targetWidth targetHeight zoom)
                 targetWidth targetHeight) targetWidth targetHeight = Some blob ∧
    h' = <[fresh (dom h) :=
             drawImage br processed
               (placement (cwidth processed) (cheight processed)
                          targetWidth targetHeight zoom)
               targetWidth targetHeight]> h ∧
    frame = mkFrame blob (createObjectURL br blob) i (Some (fresh (dom h)))
                    (Some targetWidth) (Some targetHeight).
Proof.
  unfold onload.
  destruct (getContext2d br targetWidth targetHeight); [|done].
  destruct (processFrameData br img targetWidth targetHeight) as [processed|]; [|done].
  destruct (toBlob br _ targetWidth targetHeight) as [blob|] eqn:Hblob; [|done].
  intros [= <- <-]. by exists processed, blob.
Qed.
End spec_geometry.

(** Claim C3. A frame that survives is the picture of a transparent
    targetWidth x targetHeight canvas on which the whole crop is drawn once,
    scaled on both axes by scale = (targetHeight * 0.85 * zoom) / croppedHeight
    and placed at destX = (targetWidth - scaledWidth) / 2,
    destY = (targetHeight - scaledHeight) / 2. The arithmetic is JavaScript's,
    whatever number type carries it. *)
Theorem onload_geometry {num : Type} `{!JsNumber num}
    (br : Browser num) (h : heap) (i : nat) (img : Image)
    (targetWidth targetHeight : Z) (zoom : num) (h' : heap) (frame : GeneratedFrame) :
  onload br h i img targetWidth targetHeight zoom = (h', Some frame) →
  ∃ crop pb,
    processFrameData br img targetWidth targetHeight = Some crop ∧
    width frame = Some targetWidth ∧ height frame = Some targetHeight ∧
    pixelBuffer frame = Some pb ∧
    let scale := spec_scale targetHeight zoom (cheight crop) in
    let scaledWidth := spec_scaledWidth (cwidth crop) scale in
    let scaledHeight := spec_scaledHeight (cheight crop) scale in
    h' !! pb =
      Some (drawImage br crop
              (mkDrawArgs 0 0 (cwidth crop) (cheight crop)
                 (spec_destX targetWidth scaledWidth)
                 (spec_destY targetHeight scaledHeight)
                 scaledWidth scaledHeight)
              targetWidth targetHeight).
Proof.
  intros (crop & blob & Hcrop & _ & -> & ->)%onload_Some.
  exists crop, (fresh (dom h)). simpl.
  rewrite lookup_insert_eq, placement_spec. done.
Qed.

(** With exact rational arithmetic and a crop of non-zero height, the
    drawn height is 85% of the canvas height times the zoom, the aspect
    ratio of the crop is kept, and the margins on opposite sides are equal. *)
Lemma placement_exact (croppedWidth croppedHeight targetWidth targetHeight : Z) (zoom : Qc) :
  croppedHeight ≠ 0 →
  let args := placement croppedWidth croppedHeight targetWidth targetHeight zoom in
  dHeight args = (Qc_of_Z targetHeight * Q2Qc (Qmake 85 100) * zoom)%Qc ∧
  (dWidth args * Qc_of_Z croppedHeight = Qc_of_Z croppedWidth * dHeight args)%Qc ∧
  (dx args + dWidth args + dx args = Qc_of_Z targetWidth)%Qc ∧
  (dy args + dHeight args + dy args = Qc_of_Z targetHeight)%Qc.
Proof.
  intros Hh. simpl.
  assert (Qc_of_Z croppedHeight ≠ 0%Qc) as Hne.
  { rewrite <- Z2Qc_inj_0. by intros ?%Z2Qc_inj. }
  rewrite Z2Qc_inj_2.
  set (H := Qc_of_Z croppedHeight) in *.
  set (W := Qc_of_Z croppedWidth).
  set (TW := Qc_of_Z targetWidth).
  set (TH := Qc_of_Z targetHeight).
  set (c := Q2Qc (Qmake 85 100)).
  repeat split; field; done.
Qed.

Example placement_300x400 :
  let args := placement 2 2 300 400 1%Qc in
  dx args = Qc_of_Z (-20) ∧ dy args = Qc_of_Z 30 ∧
  dWidth args = Qc_of_Z 340 ∧ dHeight args = Qc_of_Z 340.
Proof. repeat split; apply Qc_is_canon; reflexivity. Qed.

Lemma onload_geometry_witness :
  ∃ crop pb,
    processFrameData demo_browser black3 300 400 = Some crop ∧
    Some 300 = Some 300 ∧ Some 400 = Some 400 ∧
    Some 0%nat = Some pb ∧
    ({[ 0%nat := image (mkCharCanvas (concat (replicate 4 [0; 0; 0; 255])) 2 2) ]} : heap) !! pb =
      Some (drawImage demo_browser crop
              (mkDrawArgs 0 0 (cwidth crop) (cheight crop)
                 (spec_destX 300
                    (spec_scaledWidth (cwidth crop) (spec_scale 400 1%Qc (cheight crop))))
                 (spec_destY 400
                    (spec_scaledHeight (cheight crop) (spec_scale 400 1%Qc (cheight crop))))
                 (spec_scaledWidth (cwidth crop) (spec_scale 400 1%Qc (cheight crop)))
                 (spec_scaledHeight (cheight crop) (spec_scale 400 1%Qc (cheight crop))))
              300 400).
Proof.
  apply (onload_geometry demo_browser ∅ 0 black3 300 400 1%Qc
           {[ 0%nat := concat (replicate 4 [0; 0; 0; 255]) ]}
           (mkFrame (concat (replicate 4 [0; 0; 0; 255])) "blob:frame" 0
                    (Some 0%nat) (Some 300) (Some 400))).
  by vm_compute.
Defined.

(** ** The scanning loop of [processFrameData] *)

Section scan.
Context (cw ch : nat) (data : list Z).
Implicit Types (s : Scan) (p q : nat).

Lemma scanPixel_step q s :
  (∀ j, (4 * q ≤ j)%nat → sdata s !! j = data !! j) →
  scanPixel cw ch (margin cw) (margin ch) (4 * q) s =
    if in_margin cw ch q || is_white data q then set_alpha0 (4 * q) s
    else if js_gt (data !! (4 * q + 3)%nat) 20 then
      mkScan (sdata s)
        (if bool_decide (q `mod` cw < minX s)%nat then (q `mod` cw)%nat else minX s)
        (if bool_decide (q / cw < minY s)%nat then (q / cw)%nat else minY s)
        (if bool_decide (q `mod` cw > maxX s)%nat then (q `mod` cw)%nat else maxX s)
        (if bool_decide (q / cw > maxY s)%nat then (q / cw)%nat else maxY s)
        true
    else s.
Proof.
  intros Hrest. unfold scanPixel, in_margin, is_white.
  replace (4 * q / 4)%nat with q by (rewrite Nat.mul_comm, Nat.div_mul; lia).
  rewrite !Hrest by lia.
  destruct (bool_decide _); [done|]. simpl.
  by destruct (js_gt _ threshold && js_gt _ threshold && js_gt _ threshold).
Qed.

Lemma scan_inv_init : scan_inv cw ch data 0 (mkScan data cw ch 0 0 false).
Proof.
  split; simpl; try done; try lia; try (by left).
  split; [done|]. intros (p & ? & _). lia.
Qed.

Lemma lt_S_cases p q : (p < q + 1)%nat → (p < q)%nat ∨ p = q.
Proof. lia. Qed.

Lemma scan_inv_skip q s s' :
  scan_inv cw ch data q s →
  survives cw ch data q = false →
  length (sdata s') = length (sdata s) →
  (∀ j, j ≠ (4 * q + 3)%nat → sdata s' !! j = sdata s !! j) →
  js_gt (sdata s' !! (4 * q + 3)%nat) 20 = false →
  minX s' = minX s → minY s' = minY s → maxX s' = maxX s → maxY s' = maxY s →
  foundPixel s' = foundPixel s →
  scan_inv cw ch data (q + 1) s'.
Proof.
  intros [] Hq Hlen Hother Hthis HminX HminY HmaxX HmaxY Hfound.
  assert (∀ p, (p < q + 1)%nat → survives cw ch data p = true → (p < q)%nat) as Hlt.
  { intros p [?| ->]%lt_S_cases Hp; [done|congruence]. }
  split.
  - congruence.
  - intros j Hj. rewrite Hother; [apply inv_rest0; lia|].
    intros ->. destruct Hj as [?|Hj]; [lia|].
    apply Hj. rewrite Nat.add_comm, Nat.mul_comm. by rewrite Nat.Div0.mod_add.
  - intros p [Hp| ->]%lt_S_cases.
    + rewrite Hother by lia. by apply inv_alpha0.
    + by rewrite Hthis, Hq.
  - rewrite Hfound, inv_found0. split.
    + intros (p & ? & ?). exists p. split; [lia|done].
    + intros (p & Hp & Hs). exists p. split; [by apply Hlt|done].
  - intros p Hp Hs. rewrite HminX, HminY, HmaxX, HmaxY.
    apply inv_box0; [by apply Hlt|done].
  - rewrite HminX. destruct inv_minX0 as [?|(p & ? & ? & ?)]; [by left|right].
    exists p. split; [lia|done].
  - rewrite HmaxX. destruct inv_maxX0 as [?|(p & ? & ? & ?)]; [by left|right].
    exists p. split; [lia|done].
  - rewrite HminY. destruct inv_minY0 as [?|(p & ? & ? & ?)]; [by left|right].
    exists p. split; [lia|done].
  - rewrite HmaxY. destruct inv_maxY0 as [?|(p & ? & ? & ?)]; [by left|right].
    exists p. split; [lia|done].
Qed.
Lemma scan_inv_hit q s :
  scan_inv cw ch data q s →
  survives cw ch data q = true →
  scan_inv cw ch data (q + 1)
    (mkScan (sdata s)
       (if bool_decide (q `mod` cw < minX s)%nat then (q `mod` cw)%nat else minX s)
       (if bool_decide (q / cw < minY s)%nat then (q / cw)%nat else minY s)
       (if bool_decide (q `mod` cw > maxX s)%nat then (q `mod` cw)%nat else maxX s)
       (if bool_decide (q / cw > maxY s)%nat then (q / cw)%nat else maxY s)
       true).
Proof.
  intros [] Hq. split; cbn [sdata minX minY maxX maxY foundPixel].
  - done.
  - intros j [Hj|Hj]; apply inv_rest0; [left; lia|by right].
  - intros p [Hp| ->]%lt_S_cases; [by apply inv_alpha0|].
    rewrite inv_rest0 by lia. rewrite Hq.
    unfold survives in Hq. by apply andb_true_iff in Hq as [_ ->].
  - split; [|done]. intros _. exists q. split; [lia|done].
  - intros p [Hp| ->]%lt_S_cases Hs.
    + destruct (inv_box0 p Hp Hs) as [? ?].
      repeat case_bool_decide; lia.
    + repeat case_bool_decide; lia.
  - case_bool_decide.
    + right. exists q. split; [lia|done].
    + destruct inv_minX0 as [?|(p & ? & ? & ?)]; [by left|right].
      exists p. split; [lia|done].
  - case_bool_decide.
    + right. exists q. split; [lia|done].
    + destruct inv_maxX0 as [?|(p & ? & ? & ?)]; [by left|right].
      exists p. split; [lia|done].
  - case_bool_decide.
    + right. exists q. split; [lia|done].
    + destruct inv_minY0 as [?|(p & ? & ? & ?)]; [by left|right].
      exists p. split; [lia|done].
  - case_bool_decide.
    + right. exists q. split; [lia|done].
    + destruct inv_maxY0 as [?|(p & ? & ? & ?)]; [by left|right].
      exists p. split; [lia|done].
Qed.

Lemma set_alpha0_lookup i s j :
  j ≠ (i + 3)%nat → sdata (set_alpha0 i s) !! j = sdata s !! j.
Proof. intros Hne. simpl. by apply list_lookup_insert_ne. Qed.

Lemma set_alpha0_alpha i s : js_gt (sdata (set_alpha0 i s) !! (i + 3)%nat) 20 = false.
Proof.
  simpl. destruct (decide (i + 3 < length (sdata s))%nat).
  - by rewrite list_lookup_insert_eq.
  - by rewrite lookup_ge_None_2 by (rewrite length_insert; lia).
Qed.

Lemma scan_inv_step q s :
  scan_inv cw ch data q s →
  scan_inv cw ch data (q + 1) (scanPixel cw ch (margin cw) (margin ch) (4 * q) s).
Proof.
  intros Hinv. rewrite scanPixel_step by (intros j Hj; apply Hinv; lia).
  destruct (in_margin cw ch q || is_white data q) eqn:Hclear.
  - apply (scan_inv_skip q s); try done.
    + unfold survives. apply orb_true_iff in Hclear as [-> | ->]; [done|].
      by rewrite andb_false_r.
    + simpl. by rewrite length_insert.
    + intros j Hj. by apply set_alpha0_lookup.
    + apply set_alpha0_alpha.
  - apply orb_false_iff in Hclear as [Hm Hw].
    destruct (js_gt (data !! (4 * q + 3)%nat) 20) eqn:Halpha.
    + apply scan_inv_hit; [done|]. unfold survives. by rewrite Hm, Hw, Halpha.
    + apply (scan_inv_skip q s); try done.
      * unfold survives. by rewrite Hm, Hw, Halpha.
      * rewrite (inv_rest _ _ _ _ _ Hinv) by lia. done.
Qed.

(** The loop of [scanFrame] ends with every pixel of the data scanned. *)
Lemma scan_loop_inv :
  ∃ q, (length data ≤ 4 * q)%nat ∧
    scan_inv cw ch data q
      (for_loop 4 (length data) 0 (length data)
         (scanPixel cw ch (margin cw) (margin ch)) (mkScan data cw ch 0 0 false)).
Proof.
  destruct (for_loop_inv
    (λ i s, ∃ q, i = (4 * q)%nat ∧ scan_inv cw ch data q s)
    4 (length data) 0 (length data)
    (scanPixel cw ch (margin cw) (margin ch)) (mkScan data cw ch 0 0 false))
    as (k & Hk & q & -> & Hinv).
  - lia.
  - lia.
  - exists 0%nat. split; [done|apply scan_inv_init].
  - intros k s _ (q & -> & Hinv). exists (q + 1)%nat. split; [lia|].
    by apply scan_inv_step.
  - by exists q.
Qed.
End scan.

Section scan_results.
Implicit Types (img : Image) (p : nat).

Lemma survives_in_range cw ch (data : list Z) p :
  survives cw ch data p = true → (4 * p + 3 < length data)%nat.
Proof.
  unfold survives. intros [_ Ha]%andb_true_iff.
  destruct (data !! (4 * p + 3)%nat) eqn:Hl; [|done].
  by apply lookup_lt_Some in Hl.
Qed.

Lemma scanFrame_inv img :
  ∃ q, (length (pixels img) ≤ 4 * q)%nat ∧
       scan_inv (naturalWidth img) (naturalHeight img) (pixels img) q (scanFrame img).
Proof. apply scan_loop_inv. Qed.

(** After the loop, the pixels with alpha above 20 are the surviving
    ones, and the colour samples are untouched. *)
Lemma scanFrame_alpha img p :
  js_gt (sdata (scanFrame img) !! (4 * p + 3)%nat) 20
  = survives (naturalWidth img) (naturalHeight img) (pixels img) p.
Proof.
  destruct (scanFrame_inv img) as (q & Hq & Hinv).
  destruct (decide (p < q)%nat) as [Hp|Hp]; [by apply Hinv|].
  rewrite (inv_rest _ _ _ _ _ Hinv) by lia.
  rewrite !lookup_ge_None_2 by lia.
  unfold survives. rewrite lookup_ge_None_2 by lia. simpl. by rewrite andb_false_r.
Qed.

Lemma scanFrame_found img :
  foundPixel (scanFrame img) = true ↔
  ∃ p, survives (naturalWidth img) (naturalHeight img) (pixels img) p = true.
Proof.
  destruct (scanFrame_inv img) as (q & Hq & Hinv).
  rewrite (inv_found _ _ _ _ _ Hinv). split.
  - intros (p & _ & Hp). by exists p.
  - intros (p & Hp). exists p. split; [|done].
    apply survives_in_range in Hp. lia.
Qed.

Lemma pixel_coordinates img p :
  wf_image img →
  (4 * p + 3 < length (pixels img))%nat →
  (p `mod` naturalWidth img < naturalWidth img)%nat ∧
  (p / naturalWidth img < naturalHeight img)%nat.
Proof.
  intros (Hw & Hh & Hlen) Hp. split.
  - apply Nat.mod_upper_bound. lia.
  - apply Nat.Div0.div_lt_upper_bound. nia.
Qed.

(** The box the loop computes is the least one around the surviving
    pixels: it contains them all, and each of its four sides touches one. *)
Lemma scanFrame_bounding_box img :
  wf_image img →
  foundPixel (scanFrame img) = true →
  let cw := naturalWidth img in
  let s := scanFrame img in
  let qualifies p := survives cw (naturalHeight img) (pixels img) p = true in
  (∀ p, qualifies p →
        (minX s ≤ p `mod` cw ≤ maxX s)%nat ∧ (minY s ≤ p / cw ≤ maxY s)%nat) ∧
  (∃ p, qualifies p ∧ (p `mod` cw)%nat = minX s) ∧
  (∃ p, qualifies p ∧ (p `mod` cw)%nat = maxX s) ∧
  (∃ p, qualifies p ∧ (p / cw)%nat = minY s) ∧
  (∃ p, qualifies p ∧ (p / cw)%nat = maxY s).
Proof.
  intros Hwf Hfound cw s qualifies.
  subst cw. destruct (scanFrame_inv img) as (q & Hq & Hinv). fold s in Hinv.
  apply scanFrame_found in Hfound as (p0 & Hp0).
  assert (∀ p, qualifies p → (p < q)%nat) as Hlt.
  { intros p Hp%survives_in_range. lia. }
  pose proof (inv_box _ _ _ _ _ Hinv p0 (Hlt _ Hp0) Hp0) as [HX HY].
  pose proof (pixel_coordinates img p0 Hwf (survives_in_range _ _ _ _ Hp0)) as [Hx0 Hy0].
  split; [|split; [|split; [|split]]].
  - intros p Hp. apply (inv_box _ _ _ _ _ Hinv); [by apply Hlt|done].
  - destruct (inv_minX _ _ _ _ _ Hinv) as [Heq|(p & _ & ? & ?)]; [lia|by exists p].
  - destruct (inv_maxX _ _ _ _ _ Hinv) as [Heq|(p & _ & ? & ?)]; [|by exists p].
    exists p0. split; [done|lia].
  - destruct (inv_minY _ _ _ _ _ Hinv) as [Heq|(p & _ & ? & ?)]; [lia|by exists p].
  - destruct (inv_maxY _ _ _ _ _ Hinv) as [Heq|(p & _ & ? & ?)]; [|by exists p].
    exists p0. split; [done|lia].
Qed.
End scan_results.

(** ** Frames without a surviving pixel *)

Section dropped_frames.
Context {num : Type} `{!JsNumber num}.
Implicit Types (br : Browser num) (h : heap) (img : Image).

(** Every frame of the output was pushed by [onload] for the image at the
    frame's own index. *)
Lemma processGeneratedFrames_elem br h imageUrls targetWidth targetHeight (zoom : num) frame :
  frame ∈ (processGeneratedFrames br h imageUrls targetWidth targetHeight zoom).2 →
  ∃ url img h0 h1,
    imageUrls !! index frame = Some url ∧ loadImage br url = Some img ∧
    onload br h0 (index frame) img targetWidth targetHeight zoom = (h1, Some frame).
Proof.
  unfold processGeneratedFrames.
  set (n := length imageUrls).
  match goal with |- context [for_loop 1 n 0 n ?body ?s] =>
    destruct (for_loop_inv
      (λ (i : nat) (st : heap * list GeneratedFrame),
         ∀ frame, frame ∈ st.2 →
           ∃ url img h0 h1,
             imageUrls !! index frame = Some url ∧ loadImage br url = Some img ∧
             onload br h0 (index frame) img targetWidth targetHeight zoom
               = (h1, Some frame))
      1 n 0 n body s) as (k & _ & Hinv)
  end.
  - lia.
  - lia.
  - simpl. intros f Hf. by apply elem_of_nil in Hf.
  - intros k [h' frames] _ IH. simpl in IH.
    destruct (imageUrls !! k) as [url|] eqn:Hurl; simpl; [|done].
    destruct (loadImage br url) as [img|] eqn:Himg; simpl; [|done].
    destruct (onload br h' k img targetWidth targetHeight zoom)
      as [h'' [pushed|]] eqn:Hload; simpl.
    + intros f [Hf| ->%list_elem_of_singleton]%elem_of_app; [by apply IH|].
      pose proof (onload_index _ _ _ _ _ _ _ _ _ Hload) as [Hidx _].
      exists url, img, h', h''. by rewrite Hidx.
    + rewrite app_nil_r. exact IH.
  - exact (Hinv frame).
Qed.

Lemma onload_not_found br h i img targetWidth targetHeight (zoom : num) :
  foundPixel (scanFrame img) = false →
  processFrameData br img targetWidth targetHeight = None ∧
  onload br h i img targetWidth targetHeight zoom = (h, None).
Proof.
  intros Hfound.
  assert (processFrameData br img targetWidth targetHeight = None) as Hnone.
  { unfold processFrameData. destruct (getContext2d br _ _); [|done].
    simpl. by rewrite Hfound. }
  split; [done|]. unfold onload. rewrite Hnone.
  by destruct (getContext2d br targetWidth targetHeight).
Qed.

Lemma background_not_survives img :
  (∀ p r g b a,
     pixel_at (pixels img) p = Some (r, g, b, a) →
     in_margin (naturalWidth img) (naturalHeight img) p = false →
     240 < r ∧ 240 < g ∧ 240 < b) →
  ∀ p, survives (naturalWidth img) (naturalHeight img) (pixels img) p = false.
Proof.
  intros Hwhite p.
  destruct (survives _ _ _ p) eqn:Hs; [exfalso|done].
  pose proof (survives_in_range _ _ _ _ Hs) as Hp.
  destruct (pixel_at_is_Some (pixels img) p Hp) as [[[[r g] b] a] Hpx].
  unfold survives in Hs.
  apply andb_true_iff in Hs as [[Hm Hw]%andb_true_iff _].
  apply negb_true_iff in Hm, Hw.
  destruct (Hwhite p r g b a Hpx Hm) as (Hr & Hg & Hb).
  apply pixel_at_Some in Hpx as (Hlr & Hlg & Hlb & _).
  unfold is_white, js_gt, threshold in Hw. rewrite Hlr, Hlg, Hlb in Hw.
  rewrite !bool_decide_eq_true_2 in Hw by lia. done.
Qed.
End dropped_frames.

Lemma solid_2x2_pixel (px : list Z) p r g b a :
  pixel_at (pixels (solid 2 2 px)) p = Some (r, g, b, a) →
  length px = 4%nat → px = [r; g; b; a].
Proof.
  intros Hpx Hlen.
  destruct px as [|r' [|g' [|b' [|a' [|]]]]]; try done.
  pose proof (pixel_at_lt _ _ _ Hpx) as Hp. simpl in Hp.
  destruct p as [|[|[|[|p]]]]; [| | |  |lia];
    apply pixel_at_Some in Hpx as (Hr & Hg & Hb & Ha);
    cbv in Hr, Hg, Hb, Ha; congruence.
Qed.

(** As the claim is worded, a frame whose pixels all have red, green and
    blue in 240..255 would be dropped: one with all three equal to 240 is
    kept, because the background test is [> 240]. *)
Lemma grey240_not_dropped :
  ¬ ((∀ p r g b a,
        pixel_at (pixels grey240) p = Some (r, g, b, a) →
        in_margin (naturalWidth grey240) (naturalHeight grey240) p = false →
        240 ≤ r ≤ 255 ∧ 240 ≤ g ≤ 255 ∧ 240 ≤ b ≤ 255) →
     processFrameData demo_browser grey240 300 400 = None).
Proof.
  intros Hclaim.
  assert (processFrameData demo_browser grey240 300 400
          = Some (mkCharCanvas [240; 240; 240; 255] 1 1)) as Hkept by reflexivity.
  rewrite Hclaim in Hkept; [done|].
  intros p r g b a Hpx _.
  apply solid_2x2_pixel in Hpx; [|done]. simplify_eq. lia.
Qed.

(** Claim C4, as the code has it. A raw frame whose every pixel outside the
    safety margin has red, green and blue all strictly above 240 has no
    surviving pixel; [processFrameData] returns [null] for it, [onload]
    pushes nothing and computes no scale, and no frame of the output
    carries its index. *)
Theorem background_frame_dropped {num : Type} `{!JsNumber num}
    (br : Browser num) (h : heap) (imageUrls : list string) (i : nat) (url : string)
    (img : Image) (targetWidth targetHeight : Z) (zoom : num) :
  (∀ p r g b a,
     pixel_at (pixels img) p = Some (r, g, b, a) →
     in_margin (naturalWidth img) (naturalHeight img) p = false →
     240 < r ∧ 240 < g ∧ 240 < b) →
  (∀ p, survives (naturalWidth img) (naturalHeight img) (pixels img) p = false) ∧
  processFrameData br img targetWidth targetHeight = None ∧
  onload br h i img targetWidth targetHeight zoom = (h, None) ∧
  (imageUrls !! i = Some url → loadImage br url = Some img →
   ∀ frame,
     frame ∈ (processGeneratedFrames br h imageUrls targetWidth targetHeight zoom).2 →
     index frame ≠ i).
Proof.
  intros Hwhite.
  pose proof (background_not_survives img Hwhite) as Hnone.
  assert (foundPixel (scanFrame img) = false) as Hfound.
  { destruct (foundPixel (scanFrame img)) eqn:Hf; [|done].
    apply scanFrame_found in Hf as (p & Hp). by rewrite Hnone in Hp. }
  split; [done|]. split; [by apply onload_not_found|].
  split; [by apply onload_not_found|].
  intros Hurl Himg frame Hframe <-.
  apply processGeneratedFrames_elem in Hframe
    as (url' & img' & h0 & h1 & Hurl' & Himg' & Hload).
  rewrite Hurl in Hurl'. injection Hurl' as <-.
  rewrite Himg in Himg'. injection Himg' as <-.
  by rewrite (proj2 (onload_not_found br h0 (index frame) img
                       targetWidth targetHeight zoom Hfound)) in Hload.
Qed.

Lemma background_frame_dropped_witness :
  (∀ p r g b a,
     pixel_at (pixels white2) p = Some (r, g, b, a) →
     in_margin (naturalWidth white2) (naturalHeight white2) p = false →
     240 < r ∧ 240 < g ∧ 240 < b) ∧
  (∀ p, survives (naturalWidth white2) (naturalHeight white2) (pixels white2) p = false) ∧
  processFrameData demo_browser white2 300 400 = None ∧
  onload demo_browser ∅ 0 white2 300 400 1%Qc = (∅, None) ∧
  (∀ frame,
     frame ∈ (processGeneratedFrames demo_browser ∅ ["blob:white2"] 300 400 1%Qc).2 →
     index frame ≠ 0%nat).
Proof.
  assert (∀ p r g b a,
     pixel_at (pixels white2) p = Some (r, g, b, a) →
     in_margin (naturalWidth white2) (naturalHeight white2) p = false →
     240 < r ∧ 240 < g ∧ 240 < b) as Hwhite.
  { intros p r g b a Hpx _.
    apply solid_2x2_pixel in Hpx; [|reflexivity]. simplify_eq. lia. }
  split; [exact Hwhite|].
  destruct (background_frame_dropped demo_browser ∅ ["blob:white2"] 0 "blob:white2"
              white2 300 400 1%Qc Hwhite) as (Hnone & Hnull & Hload & Hout).
  split; [exact Hnone|]. split; [exact Hnull|]. split; [exact Hload|].
  apply Hout; reflexivity.
Defined.

(** ** The size of the crop *)

Section crop_size.
Context {num : Type} `{!JsNumber num}.
Implicit Types (br : Browser num) (img : Image).

Lemma processFrameData_Some br img targetWidth targetHeight crop :
  processFrameData br img targetWidth targetHeight = Some crop →
  foundPixel (scanFrame img) = true ∧
  cwidth crop = Z.of_nat (maxX (scanFrame img)) - Z.of_nat (minX (scanFrame img)) ∧
  cheight crop = Z.of_nat (maxY (scanFrame img)) - Z.of_nat (minY (scanFrame img)).
Proof.
  unfold processFrameData.
  destruct (getContext2d br (Z.of_nat _) (Z.of_nat _)); [|done]. simpl.
  destruct (foundPixel (scanFrame img)); [|done]. simpl.
  destruct (getContext2d br _ _); [|done]. simpl.
  by intros [= <-].
Qed.

(** The width and height of the crop are the differences of the extreme
    coordinates, one less than the number of columns and rows the surviving
    pixels span: they are never negative, and the surviving pixels in the
    last column and in the last row fall outside the crop. *)
Lemma crop_one_short br img targetWidth targetHeight crop :
  wf_image img →
  processFrameData br img targetWidth targetHeight = Some crop →
  let cw := naturalWidth img in
  let s := scanFrame img in
  let qualifies p := survives cw (naturalHeight img) (pixels img) p = true in
  0 ≤ cwidth crop ∧ 0 ≤ cheight crop ∧
  (∃ p, qualifies p ∧ Z.of_nat (p `mod` cw) - Z.of_nat (minX s) = cwidth crop) ∧
  (∃ p, qualifies p ∧ Z.of_nat (p / cw) - Z.of_nat (minY s) = cheight crop).
Proof.
  intros Hwf (Hfound & -> & ->)%processFrameData_Some cw s qualifies.
  subst cw s qualifies.
  destruct (scanFrame_bounding_box img Hwf Hfound)
    as (Hbox & (p1 & Hp1 & Hx1) & (p2 & Hp2 & Hx2) & (p3 & Hp3 & Hy3) & (p4 & Hp4 & Hy4)).
  destruct (Hbox p1 Hp1) as [? ?]. destruct (Hbox p3 Hp3) as [? ?].
  split; [lia|]. split; [lia|]. split.
  - exists p2. split; [done|lia].
  - exists p4. split; [done|lia].
Qed.

(** Surviving pixels that all lie in one row give a crop of height 0, and
    in one column a crop of width 0. *)
Lemma single_row_or_column br img targetWidth targetHeight crop :
  wf_image img →
  processFrameData br img targetWidth targetHeight = Some crop →
  let cw := naturalWidth img in
  let qualifies p := survives cw (naturalHeight img) (pixels img) p = true in
  ((∃ y, ∀ p, qualifies p → (p / cw)%nat = y) → cheight crop = 0) ∧
  ((∃ x, ∀ p, qualifies p → (p `mod` cw)%nat = x) → cwidth crop = 0).
Proof.
  intros Hwf (Hfound & -> & ->)%processFrameData_Some cw qualifies.
  subst cw qualifies.
  destruct (scanFrame_bounding_box img Hwf Hfound)
    as (_ & (p1 & Hp1 & Hx1) & (p2 & Hp2 & Hx2) & (p3 & Hp3 & Hy3) & (p4 & Hp4 & Hy4)).
  split.
  - intros (y & Hy). rewrite <- Hy3, <- Hy4, (Hy p3 Hp3), (Hy p4 Hp4). lia.
  - intros (x & Hx). rewrite <- Hx1, <- Hx2, (Hx p1 Hp1), (Hx p2 Hp2). lia.
Qed.
End crop_size.

(** Claim C2, the code on a 3 x 3 image of opaque black pixels. All nine
    pixels have alpha above 20 after cleaning, so the least rectangle around
    them is 3 x 3 (columns 0..2, rows 0..2, as the loop finds); the crop is
    2 x 2 and leaves out column 2 and row 2, where pixel 8 lies. *)
Theorem black3_crop :
  (∀ p, (p < 9)%nat → js_gt (sdata (scanFrame black3) !! (4 * p + 3)%nat) 20 = true) ∧
  (minX (scanFrame black3), maxX (scanFrame black3)) = (0%nat, 2%nat) ∧
  (minY (scanFrame black3), maxY (scanFrame black3)) = (0%nat, 2%nat) ∧
  processFrameData demo_browser black3 300 400
    = Some (mkCharCanvas (concat (replicate 4 [0; 0; 0; 255])) 2 2).
Proof.
  split; [|by vm_compute].
  intros p Hp. do 9 (destruct p as [|p]; [by vm_compute|]). lia.
Qed.

(** Claim C10, the code on frames whose surviving pixels lie in a single
    row ([row3]) or are a single pixel ([dot3]): both survive the
    bounding-box step, and the crop height, the divisor of the scale, is 0;
    for the single pixel the width is 0 as well. *)
Theorem single_row_crop :
  foundPixel (scanFrame row3) = true ∧
  processFrameData demo_browser row3 300 400 = Some (mkCharCanvas [] 2 0) ∧
  foundPixel (scanFrame dot3) = true ∧
  processFrameData demo_browser dot3 300 400 = Some (mkCharCanvas [] 0 0).
Proof. by vm_compute. Qed.

(** ** The generator: batches, failures and cancellation *)

Example schedule_6 :
  schedule 6 = [Check; Call 0; Call 1; Call 2; Check;
                Check; Call 3; Call 4; Call 5; Check]%nat.
Proof. reflexivity. Qed.

Example schedule_4 :
  schedule 4 = [Check; Call 0; Call 1; Call 2; Check; Check; Call 3; Check]%nat.
Proof. reflexivity. Qed.

Lemma for_loop_1_seq {St : Type} (n i : nat) (body : nat → St → St) (s : St) :
  for_loop 1 n i (i + n) body s = foldl (λ s j, body j s) s (seq i n).
Proof.
  revert i s. induction n as [|n IH]; intros i s; simpl; [done|].
  case_decide; [|lia].
  replace (i + S n)%nat with ((i + 1) + n)%nat by lia.
  rewrite IH. by replace (i + 1)%nat with (S i) by lia.
Qed.

Section promise_all.
Context {A : Type}.
Implicit Types (promises : list (nat * result A)).

Lemma first_rejection_foldl promises best :
  match foldl (λ best (p : nat * result A),
                 match p.2, best with
                 | Err e, Some (t, _) =>
                     if decide (p.1 < t)%nat then Some (p.1, e) else best
                 | Err e, None => Some (p.1, e)
                 | Ok _, _ => best
                 end) best promises with
  | None => best = None ∧ Forall (λ p, is_Ok p.2) promises
  | Some (t, e) => best = Some (t, e) ∨ (t, Err e) ∈ promises
  end.
Proof.
  revert best. induction promises as [|[t r] rest IH]; intros best; simpl.
  - destruct best as [[t e]|]; [by left|done].
  - match goal with |- context [foldl ?f ?b rest] =>
      specialize (IH b); destruct (foldl f b rest) as [[t' e']|] end.
    + destruct IH as [Hb|Hin]; [|right; by apply list_elem_of_further].
      destruct r as [a|e]; simpl in Hb.
      * by left.
      * destruct best as [[t0 e0]|].
        -- case_decide; simplify_eq; [right; apply list_elem_of_here|by left].
        -- simplify_eq. right. apply list_elem_of_here.
    + destruct IH as [Hb Hall]. destruct r as [a|e]; simpl in Hb.
      * split; [done|]. by constructor.
      * destruct best as [[t0 e0]|]; [by case_decide|done].
Qed.

Lemma promise_all_Ok promises values :
  promise_all promises = Ok values →
  Forall2 (λ p v, p.2 = Ok v) promises values.
Proof.
  unfold promise_all, first_rejection.
  pose proof (first_rejection_foldl promises None) as Hfold.
  destruct (foldl _ None promises) as [[t e]|]; [done|].
  destruct Hfold as [_ Hall]. intros [= <-].
  induction Hall as [|[t [a|e]] rest Hp _ IH]; simpl; try done.
  by constructor.
Qed.

Lemma promise_all_Err promises e :
  promise_all promises = Err e → ∃ t, (t, Err e) ∈ promises.
Proof.
  unfold promise_all, first_rejection.
  pose proof (first_rejection_foldl promises None) as Hfold.
  destruct (foldl _ None promises) as [[t e']|]; [|done].
  intros [= <-]. destruct Hfold as [?|?]; [done|by exists t].
Qed.
End promise_all.

Section generator_proofs.
Context (rm : Remote) (imageBase64 mimeType prompt : string).
Context (count : nat) (signal : option (nat → bool)).

Lemma startBatch_loop n i acc st :
  for_loop 1 n i (i + n)
    (λ j '(batchPromises, st),
       (batchPromises ++ [(settles rm j, frame_result rm imageBase64 mimeType prompt count j)], call_generate j st))
    (acc, st)
  = (acc ++ ((λ j, (settles rm j, frame_result rm imageBase64 mimeType prompt count j)) <$> seq i n),
     mkGenState (trace st ++ (CallGenerate <$> seq i n)) (reads st)).
Proof.
  revert i acc st. induction n as [|n IH]; intros i acc [tr rd]; simpl.
  - by rewrite !app_nil_r.
  - case_decide; [|lia].
    replace (i + S n)%nat with ((i + 1) + n)%nat by lia.
    unfold call_generate at 1. simpl. rewrite IH. simpl.
    replace (i + 1)%nat with (S i) by lia.
    by rewrite <- !app_assoc.
Qed.

Lemma startBatch_eq i st :
  startBatch rm imageBase64 mimeType prompt count i st
  = ((λ j, (settles rm j, frame_result rm imageBase64 mimeType prompt count j)) <$> batch_indices i count,
     mkGenState (trace st ++ (CallGenerate <$> batch_indices i count)) (reads st)).
Proof.
  unfold startBatch, batch_indices.
  set (bound := ((i + batchSize) `min` count)%nat).
  destruct (decide (i ≤ bound)%nat) as [Hle|Hgt].
  - remember (bound - i)%nat as n eqn:Hn.
    replace bound with (i + n)%nat by lia.
    apply (startBatch_loop n i [] st).
  - replace (bound - i)%nat with 0%nat by lia. destruct st as [tr rd]. simpl.
    by rewrite app_nil_r.
Qed.
(** [count] iterations are enough for the outer loop: with at least
    [count - i] of them left, more change nothing, in the run or in the
    schedule. *)
Lemma batches_more_fuel fuel fuel' i urls st :
  (count - i ≤ fuel)%nat → (count - i ≤ fuel')%nat →
  batches rm imageBase64 mimeType prompt count signal fuel i urls st
  = batches rm imageBase64 mimeType prompt count signal fuel' i urls st.
Proof.
  revert fuel' i urls st.
  induction fuel as [|fuel IH]; intros fuel' i urls st Hf Hf'.
  - destruct fuel' as [|fuel']; simpl; [done|]. case_decide; [lia|done].
  - destruct fuel' as [|fuel']; simpl.
    + case_decide; [lia|done].
    + case_decide; [|done].
      destruct (from_option (λ s, s (reads st)) false signal); [done|].
      destruct (startBatch _ _ _ _ _ _ _) as [batchPromises st1].
      destruct (promise_all batchPromises) as [batchResults|e]; [|done].
      destruct (from_option (λ s, s (reads st1)) false signal); [done|].
      apply IH; unfold batchSize; lia.
Qed.

Lemma schedule_from_more_fuel n n' i :
  (count - i ≤ n)%nat → (count - i ≤ n')%nat →
  schedule_from n i count = schedule_from n' i count.
Proof.
  revert n' i. induction n as [|n IH]; intros n' i Hn Hn'.
  - destruct n' as [|n']; simpl; [done|]. case_decide; [lia|done].
  - destruct n' as [|n']; simpl.
    + case_decide; [lia|done].
    + case_decide; [|done]. do 3 f_equal. apply IH; unfold batchSize; lia.
Qed.

Lemma batch_indices_split i :
  (i < count)%nat →
  seq i (count - i) = batch_indices i count ++ seq (i + batchSize) (count - (i + batchSize)).
Proof.
  intros Hlt. unfold batch_indices, batchSize.
  destruct (decide (i + 3 ≤ count)%nat).
  - replace ((i + 3) `min` count - i)%nat with 3%nat by lia.
    replace (count - i)%nat with (3 + (count - (i + 3)))%nat by lia.
    by rewrite seq_app.
  - replace ((i + 3) `min` count - i)%nat with (count - i)%nat by lia.
    replace (count - (i + 3))%nat with 0%nat by lia.
    by rewrite app_nil_r.
Qed.

Lemma batch_promises_Ok i (values : list string) :
  promise_all ((λ j, (settles rm j, frame_result rm imageBase64 mimeType prompt count j)) <$> batch_indices i count)
    = Ok values →
  Forall2 (λ j u, frame_result rm imageBase64 mimeType prompt count j = Ok u) (batch_indices i count) values.
Proof.
  intros Hall%promise_all_Ok.
  by apply Forall2_fmap_l in Hall.
Qed.

Lemma batch_promises_Err i e :
  promise_all ((λ j, (settles rm j, frame_result rm imageBase64 mimeType prompt count j)) <$> batch_indices i count)
    = Err e →
  ∃ j, j ∈ batch_indices i count ∧ frame_result rm imageBase64 mimeType prompt count j = Err e.
Proof.
  intros [t Hin]%promise_all_Err.
  apply list_elem_of_fmap in Hin as (j & [= _ Hj] & Hin). by exists j.
Qed.

(** A successful run returns the results of all requests from [i] on, in
    order, after the URLs it started with. *)
Lemma batches_Ok fuel i urls st st' out :
  (count - i ≤ fuel)%nat →
  batches rm imageBase64 mimeType prompt count signal fuel i urls st = (st', Ok out) →
  ∃ new_urls,
    out = urls ++ new_urls ∧
    Forall2 (λ j u, frame_result rm imageBase64 mimeType prompt count j = Ok u) (seq i (count - i)) new_urls.
Proof.
  revert i urls st. induction fuel as [|fuel IH]; intros i urls st Hfuel; simpl.
  - intros [= _ <-]. exists []. rewrite app_nil_r.
    replace (count - i)%nat with 0%nat by lia. by split.
  - case_decide as Hlt.
    + destruct (from_option _ false signal); [done|].
      rewrite startBatch_eq.
      destruct (promise_all _) as [batchResults|e] eqn:Hall; [|done].
      apply batch_promises_Ok in Hall.
      destruct (from_option _ false signal); [done|].
      intros (rest & -> & Hrest)%IH; [|unfold batchSize; lia].
      exists (batchResults ++ rest). split; [by rewrite app_assoc|].
      rewrite batch_indices_split by done. by apply Forall2_app.
    + intros [= _ <-]. exists []. rewrite app_nil_r.
      replace (count - i)%nat with 0%nat by lia. by split.
Qed.
Lemma step_of_calls (js : list nat) :
  step_of <$> (CallGenerate <$> js) = Call <$> js.
Proof. by rewrite <- list_fmap_compose. Qed.

Lemma calls_not_abort (js : list nat) : ReadAborted true ∉ (CallGenerate <$> js).
Proof. by intros (j & ? & _)%list_elem_of_fmap. Qed.

Lemma steps_batch (js : list nat) b1 b2 (rest : list Event) :
  step_of <$> (ReadAborted b1 :: (CallGenerate <$> js) ++ ReadAborted b2 :: rest)
  = Check :: (Call <$> js) ++ Check :: (step_of <$> rest).
Proof. by rewrite fmap_cons, fmap_app, fmap_cons, step_of_calls. Qed.

(** What a run adds to the trace, and how it ends: either without ever
    reading an aborted signal, or with that read as its last event and the
    abort error as its result. *)
Lemma batches_trace fuel i urls st :
  ∃ new,
    trace (batches rm imageBase64 mimeType prompt count signal fuel i urls st).1
      = trace st ++ new ∧
    (step_of <$> new) `prefix_of` schedule_from fuel i count ∧
    match (batches rm imageBase64 mimeType prompt count signal fuel i urls st).2 with
    | Ok _ =>
        (ReadAborted true ∉ new) ∧ step_of <$> new = schedule_from fuel i count
    | Err e =>
        (∃ pre, new = pre ++ [ReadAborted true] ∧ (ReadAborted true ∉ pre) ∧
                e = abort_message) ∨
        ((ReadAborted true ∉ new) ∧
         ∃ j, CallGenerate j ∈ new ∧ frame_result rm imageBase64 mimeType prompt count j = Err e)
    end.
Proof.
  revert i urls st. induction fuel as [|fuel IH]; intros i urls st; simpl.
  { exists []. rewrite app_nil_r. repeat split; [done|apply not_elem_of_nil]. }
  case_decide as Hlt; simpl.
  2: { exists []. rewrite app_nil_r. repeat split; [done|apply not_elem_of_nil]. }
  destruct (from_option (λ s, s (reads st)) false signal) eqn:Hb1; simpl.
  { exists [ReadAborted true]. split; [done|]. split.
    - apply prefix_cons, prefix_nil.
    - left. exists []. repeat split. apply not_elem_of_nil. }
  rewrite startBatch_eq. simpl.
  pose proof (calls_not_abort (batch_indices i count)) as Hcalls.
  set (calls := CallGenerate <$> batch_indices i count) in *.
  destruct (promise_all _) as [batchResults|e] eqn:Hall; simpl.
  2: { exists (ReadAborted false :: calls). split; [by rewrite <- app_assoc|]. split.
       - rewrite fmap_cons. apply prefix_cons. unfold calls. rewrite step_of_calls.
         by apply prefix_app_r.
       - right. split.
         + intros [?|?]%elem_of_cons; [done|by apply Hcalls].
         + apply batch_promises_Err in Hall as (j & Hj & He). exists j. split; [|done].
           apply list_elem_of_further, list_elem_of_fmap. by exists j. }
  destruct (from_option (λ s, s (S (reads st))) false signal) eqn:Hb2; simpl.
  { exists (ReadAborted false :: calls ++ [ReadAborted true]).
    split; [by rewrite <- !app_assoc|]. split.
    - unfold calls. rewrite (steps_batch (batch_indices i count) false true []). simpl.
      apply prefix_cons, prefix_app, prefix_cons, prefix_nil.
    - left. exists (ReadAborted false :: calls). repeat split.
      intros [?|?]%elem_of_cons; [done|by apply Hcalls]. }
  match goal with |- context [batches _ _ _ _ _ _ fuel ?i' ?urls' ?st'] =>
    destruct (IH i' urls' st') as (new' & Htrace & Hprefix & Hresult);
    destruct (batches rm imageBase64 mimeType prompt count signal fuel i' urls' st')
      as [st'' [out|e]]
  end; simpl in Htrace, Hresult |- *.
  - exists (ReadAborted false :: calls ++ ReadAborted false :: new').
    split; [rewrite Htrace; by rewrite <- !app_assoc|].
    unfold calls. rewrite (steps_batch (batch_indices i count) false false new'). split.
    + by apply prefix_cons, prefix_app, prefix_cons.
    + destruct Hresult as [Hnot Heq]. split; [|by rewrite Heq].
      intros [?|[?|[?|?]%elem_of_cons]%elem_of_app]%elem_of_cons;
        [done|by apply Hcalls|done|by apply Hnot].
  - exists (ReadAborted false :: calls ++ ReadAborted false :: new').
    split; [rewrite Htrace; by rewrite <- !app_assoc|].
    unfold calls. rewrite (steps_batch (batch_indices i count) false false new'). split.
    + by apply prefix_cons, prefix_app, prefix_cons.
    + destruct Hresult as [(pre & -> & Hpre & ->)|(Hnot & j & Hj & He)].
      * left. exists (ReadAborted false :: calls ++ ReadAborted false :: pre).
        split; [simpl; by rewrite <- app_assoc|]. split; [|done].
        intros [?|[?|[?|?]%elem_of_cons]%elem_of_app]%elem_of_cons;
          [done|by apply Hcalls|done|by apply Hpre].
      * right. split.
        -- intros [?|[?|[?|?]%elem_of_cons]%elem_of_app]%elem_of_cons;
             [done|by apply Hcalls|done|by apply Hnot].
        -- exists j. split; [|done].
           apply list_elem_of_further, elem_of_app. right.
           by apply list_elem_of_further.
Qed.
End generator_proofs.

Section generator_theorems.
Context (rm : Remote) (imageBase64 mimeType prompt : string).
Context (count : nat) (signal : option (nat → bool)).

Lemma generateAnimationFrames_Ok out :
  (generateAnimationFrames rm imageBase64 mimeType prompt count signal).2 = Ok out →
  Forall2 (λ j u, frame_result rm imageBase64 mimeType prompt count j = Ok u)
          (seq 0 count) out.
Proof.
  unfold generateAnimationFrames.
  destruct (batches _ _ _ _ _ _ count 0 [] _) as [st' r] eqn:Hrun. simpl.
  intros ->. apply batches_Ok in Hrun as (new_urls & -> & Hall); [|lia].
  by rewrite Nat.sub_0_r in Hall.
Qed.

(** The failures [generateSingleFrame] raises itself never carry the abort
    message; only an error thrown by the SDK call or by the conversion to
    an object URL could. *)
Lemma generateSingleFrame_not_abort index total :
  (∀ req, generateContent rm index req ≠ Err abort_message) →
  (∀ base64Image resultMime,
     toObjectURL rm base64Image resultMime ≠ Err abort_message) →
  generateSingleFrame rm imageBase64 mimeType prompt index total ≠ Err abort_message.
Proof.
  intros Hcall Hurl. unfold generateSingleFrame, getAiClient.
  destruct (nonempty (API_KEY rm)); [|done].
  destruct (generateContent rm index _) as [response|e] eqn:Hresp.
  2: { intros [= ->]. by eapply Hcall. }
  destruct (head (candidates response)) as [candidate|]; [|done].
  destruct (match nonempty (finishReason candidate) with
            | Some reason => bool_decide (reason ≠ "STOP")
            | None => false
            end); [done|].
  destruct (head (parts candidate) ≫= _) as [refusal|]; [done|].
  destruct ((head (parts candidate) ≫= inlineData) ≫= _) as [base64Image|]; [|done].
  apply Hurl.
Qed.
End generator_theorems.

(** Claim C7. If any one of the [count] per-frame requests fails, for
    whatever reason, [generateAnimationFrames] fails as a whole: it does not
    return the frames that succeeded. *)
Theorem generation_all_or_nothing (rm : Remote) (imageBase64 mimeType prompt : string)
    (count : nat) (signal : option (nat → bool)) (j : nat) :
  (j < count)%nat →
  is_Err (generateSingleFrame rm imageBase64 mimeType prompt j count) →
  is_Err (generateAnimationFrames rm imageBase64 mimeType prompt count signal).2.
Proof.
  intros Hj Hfail.
  destruct (generateAnimationFrames rm imageBase64 mimeType prompt count signal).2
    as [out|e] eqn:Hrun; [|done].
  apply generateAnimationFrames_Ok in Hrun.
  destruct (Forall2_lookup_l _ _ _ j j Hrun) as (u & _ & Hu).
  { apply lookup_seq. lia. }
  unfold frame_result in Hu. by rewrite Hu in Hfail.
Qed.

Example all_frames_generated :
  generateAnimationFrames (demo_remote None) "ref" "image/png" "wave" 4 None
  = (mkGenState [ReadAborted false; CallGenerate 0; CallGenerate 1; CallGenerate 2;
                 ReadAborted false; ReadAborted false; CallGenerate 3;
                 ReadAborted false] 4,
     Ok ["blob:0"; "blob:1"; "blob:2"; "blob:3"]).
Proof. reflexivity. Qed.

Example safety_refusal_fails_run :
  (generateAnimationFrames (demo_remote (Some 3%nat)) "ref" "image/png" "wave" 6 None).2
  = Err "Model stopped generation: SAFETY".
Proof. reflexivity. Qed.

Lemma generation_all_or_nothing_witness :
  (3 < 6)%nat ∧
  is_Err (generateSingleFrame (demo_remote (Some 3%nat)) "ref" "image/png" "wave" 3 6) ∧
  is_Err (generateAnimationFrames (demo_remote (Some 3%nat)) "ref" "image/png" "wave"
            6 None).2.
Proof.
  split; [lia|]. split; [exact I|].
  apply (generation_all_or_nothing (demo_remote (Some 3%nat)) "ref" "image/png" "wave"
           6 None 3); [lia|exact I].
Defined.

(** Cancellation requested while the first batch of a six-frame run is in
    flight: the read after the batch sees it, and no request of the second
    batch is made. *)
Example cancel_after_first_batch :
  generateAnimationFrames (demo_remote None) "ref" "image/png" "wave" 6
    (Some (λ n, bool_decide (1 ≤ n)%nat))
  = (mkGenState [ReadAborted false; CallGenerate 0; CallGenerate 1; CallGenerate 2;
                 ReadAborted true] 2,
     Err "Generation aborted by user.").
Proof. reflexivity. Qed.


Section run.
Context {num : Type} `{!JsNumber num}.
Context (rm : Remote) (br : Browser num) (env : Encoders num) (h : heap).
Context (base64Data mimeType : string) (config : UserConfig num).
Context (signal : option (nat → bool)) (originalDimensions : option (Z * Z)).

Lemma handleGenerate_cancelled :
  (generateAnimationFrames rm base64Data mimeType (prompt config) (frameCount config)
     signal).2 = Err abort_message →
  handleGenerate rm br env h base64Data mimeType config signal originalDimensions
  = Cancelled.
Proof.
  unfold handleGenerate.
  destruct (generateAnimationFrames _ _ _ _ _ _) as [st r]. simpl. by intros ->.
Qed.

Lemma handleGenerate_failed e :
  (generateAnimationFrames rm base64Data mimeType (prompt config) (frameCount config)
     signal).2 = Err e →
  e ≠ abort_message →
  handleGenerate rm br env h base64Data mimeType config signal originalDimensions
  = Failed e.
Proof.
  unfold handleGenerate.
  destruct (generateAnimationFrames _ _ _ _ _ _) as [st r]. simpl. intros -> Hne.
  unfold catch_error. by case_decide.
Qed.
End run.


(** ** Whole runs *)

(** Two frames generated and normalised; APNG and ZIP are produced, and the
    GIF is absent because this browser's canvas data has not the size
    [ImageData] asks for. *)
Example run_completed :
  handleGenerate black3_remote demo_browser demo_encoders ∅ "ref" "image/png"
    demo_config None (Some (300, 400))
  = Completed (mkArtifacts (concat (replicate 8 [0; 0; 0; 255])) None
                 (Some (concat (replicate 8 [0; 0; 0; 255])))).
Proof. by vm_compute. Qed.

(** No generated image can be loaded: no frame survives, and the run fails
    in the APNG encoder. *)
Example run_without_frames :
  handleGenerate (demo_remote None) demo_browser demo_encoders ∅ "ref" "image/png"
    demo_config None (Some (300, 400))
  = Failed "No frames to encode".
Proof. by vm_compute. Qed.

Example run_refused :
  handleGenerate (demo_remote (Some 1%nat)) demo_browser demo_encoders ∅ "ref"
    "image/png" demo_config None (Some (300, 400))
  = Failed "Model stopped generation: SAFETY".
Proof. by vm_compute. Qed.

Example run_cancelled :
  handleGenerate (demo_remote None) demo_browser demo_encoders ∅ "ref" "image/png"
    demo_config (Some (λ n, bool_decide (1 ≤ n)%nat)) (Some (300, 400))
  = Cancelled.
Proof. by vm_compute. Qed.

(** ** Frame cleaning and the bounding box *)

Section cleaning.
Context (cw ch : nat) (data : list Z).

Lemma sample_of_pixel (q r : nat) :
  (r < 4)%nat → ((4 * q + r) `mod` 4 = r ∧ (4 * q + r) / 4 = q)%nat.
Proof.
  intros Hr. split.
  - rewrite Nat.add_comm, Nat.mul_comm, Nat.Div0.mod_add. by apply Nat.mod_small.
  - rewrite Nat.add_comm, Nat.mul_comm, Nat.div_add by lia.
    rewrite Nat.div_small by lia. done.
Qed.

Lemma sample_cases (q j : nat) :
  (4 * q ≤ j < 4 * q + 4)%nat →
  (j `mod` 4 = 3)%nat → j = (4 * q + 3)%nat.
Proof.
  intros Hj Hmod. pose proof (Nat.div_mod_eq j 4). lia.
Qed.

Lemma cleaned_sample_alpha (q : nat) :
  cleaned_sample cw ch data (4 * q + 3)
  = if in_margin cw ch q || is_white data q
    then (λ _, 0) <$> data !! (4 * q + 3)%nat else data !! (4 * q + 3)%nat.
Proof.
  unfold cleaned_sample.
  destruct (sample_of_pixel q 3) as [-> ->]; [lia|]. done.
Qed.

Lemma cleaned_sample_colour (j : nat) :
  (j `mod` 4 ≠ 3)%nat → cleaned_sample cw ch data j = data !! j.
Proof. intros Hj. unfold cleaned_sample. by rewrite bool_decide_eq_false_2. Qed.

Lemma scan_loop_cleaned :
  let s := for_loop 4 (length data) 0 (length data)
             (scanPixel cw ch (margin cw) (margin ch)) (mkScan data cw ch 0 0 false) in
  length (sdata s) = length data ∧
  ∀ j, sdata s !! j = cleaned_sample cw ch data j.
Proof.
  intros s. subst s.
  destruct (for_loop_inv
    (λ i s, ∃ q, i = (4 * q)%nat ∧ length (sdata s) = length data ∧
            ∀ j, sdata s !! j =
                 if decide (j < 4 * q)%nat then cleaned_sample cw ch data j
                 else data !! j)
    4 (length data) 0 (length data)
    (scanPixel cw ch (margin cw) (margin ch)) (mkScan data cw ch 0 0 false))
    as (k & Hk & q & -> & Hlen & Hall).
  - lia.
  - lia.
  - exists 0%nat. split; [done|]. split; [done|]. intros j. by case_decide; [lia|].
  - intros k s Hlt (q & -> & Hlen & Hall). exists (q + 1)%nat. split; [lia|].
    assert (∀ j, (4 * q ≤ j)%nat → sdata s !! j = data !! j) as Hrest.
    { intros j Hj. rewrite Hall. by case_decide; [lia|]. }
    rewrite (scanPixel_step cw ch data q s) by done.
    assert (∀ j, (if decide (j < 4 * q)%nat then cleaned_sample cw ch data j
                  else data !! j) =
                 (if decide (j < 4 * (q + 1))%nat then cleaned_sample cw ch data j
                  else data !! j) ∨ j = (4 * q + 3)%nat) as Hother.
    { intros j. destruct (decide (j = 4 * q + 3)%nat); [by right|left].
      repeat case_decide; try done; try lia.
      rewrite cleaned_sample_colour; [done|].
      intros Hmod. apply (sample_cases q) in Hmod; lia. }
    destruct (in_margin cw ch q || is_white data q) eqn:Hclear.
    + split; [unfold set_alpha0; cbn [sdata]; by rewrite length_insert|]. intros j.
      destruct (decide (j = 4 * q + 3)%nat) as [->|Hne].
      * rewrite decide_True by lia. rewrite cleaned_sample_alpha, Hclear.
        unfold set_alpha0. cbn [sdata]. rewrite <- Hrest by lia.
        destruct (decide (4 * q + 3 < length (sdata s))%nat).
        -- rewrite list_lookup_insert_eq by done.
           by destruct (lookup_lt_is_Some_2 (sdata s) (4 * q + 3)%nat) as [? ->].
        -- rewrite !lookup_ge_None_2; [done|lia|rewrite length_insert; lia].
      * rewrite set_alpha0_lookup by done. rewrite Hall.
        by destruct (Hother j) as [->|?].
    + assert (∀ j, sdata s !! j =
                   if decide (j < 4 * (q + 1))%nat then cleaned_sample cw ch data j
                   else data !! j) as Hsame.
      { intros j. destruct (decide (j = 4 * q + 3)%nat) as [->|Hne].
        - rewrite decide_True by lia. rewrite cleaned_sample_alpha, Hclear.
          apply Hrest. lia.
        - rewrite Hall. by destruct (Hother j) as [->|?]. }
      by destruct (js_gt (data !! (4 * q + 3)%nat) 20).
  - split; [done|]. intros j. rewrite Hall. case_decide; [done|].
    rewrite lookup_ge_None_2 by lia. unfold cleaned_sample.
    rewrite lookup_ge_None_2 by lia. by destruct (_ && _).
Qed.
End cleaning.

(** Background removal and the safety margin change nothing but alpha: the
    cleaned data has the length of the decoded data, its colour samples
    are untouched, and an alpha sample is set to 0 exactly for the pixels in
    the margin and the pixels whose red, green and blue are all above the
    threshold. *)
Theorem scanFrame_cleaned (img : Image) :
  length (sdata (scanFrame img)) = length (pixels img) ∧
  ∀ j, sdata (scanFrame img) !! j
       = cleaned_sample (naturalWidth img) (naturalHeight img) (pixels img) j.
Proof. apply scan_loop_cleaned. Qed.

(** The loop of [processFrameData] finds the least box around the surviving
    pixels of a decoded image that has one: every surviving pixel lies
    between the extreme columns and rows, and each of the four is the
    column or row of a surviving pixel. *)
Theorem bounding_box_minimal (img : Image) :
  wf_image img →
  foundPixel (scanFrame img) = true →
  (∀ p, survives (naturalWidth img) (naturalHeight img) (pixels img) p = true →
        (minX (scanFrame img) ≤ p `mod` naturalWidth img ≤ maxX (scanFrame img))%nat ∧
        (minY (scanFrame img) ≤ p / naturalWidth img ≤ maxY (scanFrame img))%nat) ∧
  (∃ p, survives (naturalWidth img) (naturalHeight img) (pixels img) p = true ∧
        (p `mod` naturalWidth img)%nat = minX (scanFrame img)) ∧
  (∃ p, survives (naturalWidth img) (naturalHeight img) (pixels img) p = true ∧
        (p `mod` naturalWidth img)%nat = maxX (scanFrame img)) ∧
  (∃ p, survives (naturalWidth img) (naturalHeight img) (pixels img) p = true ∧
        (p / naturalWidth img)%nat = minY (scanFrame img)) ∧
  (∃ p, survives (naturalWidth img) (naturalHeight img) (pixels img) p = true ∧
        (p / naturalWidth img)%nat = maxY (scanFrame img)).
Proof. intros Hwf Hfound. exact (scanFrame_bounding_box img Hwf Hfound). Qed.

Lemma bounding_box_minimal_witness :
  wf_image black3 ∧ foundPixel (scanFrame black3) = true ∧
  (∃ p, survives 3 3 (pixels black3) p = true ∧
        (p `mod` 3)%nat = minX (scanFrame black3)).
Proof.
  assert (wf_image black3) as Hwf by (repeat split; simpl; lia).
  split; [exact Hwf|]. split; [reflexivity|].
  exact (proj1 (proj2 (bounding_box_minimal black3 Hwf eq_refl))).
Defined.

(** The box never reaches into the safety margin and never leaves the
    image: its columns lie between the margin and the width minus the
    margin, below the width, and likewise its rows. *)
Theorem bounding_box_inside_margin (img : Image) :
  wf_image img →
  foundPixel (scanFrame img) = true →
  (margin (naturalWidth img) ≤ minX (scanFrame img) ≤ maxX (scanFrame img))%nat ∧
  (maxX (scanFrame img) ≤ naturalWidth img - margin (naturalWidth img))%nat ∧
  (maxX (scanFrame img) < naturalWidth img)%nat ∧
  (margin (naturalHeight img) ≤ minY (scanFrame img) ≤ maxY (scanFrame img))%nat ∧
  (maxY (scanFrame img) ≤ naturalHeight img - margin (naturalHeight img))%nat ∧
  (maxY (scanFrame img) < naturalHeight img)%nat.
Proof.
  intros Hwf Hfound.
  destruct (scanFrame_bounding_box img Hwf Hfound)
    as (Hbox & (p1 & Hp1 & Hx1) & (p2 & Hp2 & Hx2) & (p3 & Hp3 & Hy3) & (p4 & Hp4 & Hy4)).
  assert (∀ p, survives (naturalWidth img) (naturalHeight img) (pixels img) p = true →
               (margin (naturalWidth img) ≤ p `mod` naturalWidth img
                  ≤ naturalWidth img - margin (naturalWidth img))%nat ∧
               (p `mod` naturalWidth img < naturalWidth img)%nat ∧
               (margin (naturalHeight img) ≤ p / naturalWidth img
                  ≤ naturalHeight img - margin (naturalHeight img))%nat ∧
               (p / naturalWidth img < naturalHeight img)%nat) as Hin.
  { intros p Hp.
    destruct (pixel_coordinates img p Hwf (survives_in_range _ _ _ _ Hp)) as [? ?].
    unfold survives in Hp.
    apply andb_true_iff in Hp as [[Hm _]%andb_true_iff _].
    apply negb_true_iff in Hm. unfold in_margin in Hm.
    apply bool_decide_eq_false in Hm. lia. }
  destruct (Hbox p1 Hp1) as [? _]. destruct (Hbox p3 Hp3) as [_ ?].
  destruct (Hin p1 Hp1) as (? & ? & ? & ?). destruct (Hin p2 Hp2) as (? & ? & ? & ?).
  destruct (Hin p3 Hp3) as (? & ? & ? & ?). destruct (Hin p4 Hp4) as (? & ? & ? & ?).
  lia.
Qed.

Lemma bounding_box_inside_margin_witness :
  wf_image black3 ∧ foundPixel (scanFrame black3) = true ∧
  (maxX (scanFrame black3) < naturalWidth black3)%nat.
Proof.
  assert (wf_image black3) as Hwf by (repeat split; simpl; lia).
  split; [exact Hwf|]. split; [reflexivity|].
  exact (proj1 (proj2 (proj2 (bounding_box_inside_margin black3 Hwf eq_refl)))).
Defined.

(** With canvas contexts available, [processFrameData] returns [null]
    exactly for the images without a surviving pixel. *)
Theorem processFrameData_null_iff {num : Type} `{!JsNumber num}
    (br : Browser num) (img : Image) (targetWidth targetHeight : Z) :
  (∀ w ht, getContext2d br w ht = true) →
  processFrameData br img targetWidth targetHeight = None ↔
  ∀ p, survives (naturalWidth img) (naturalHeight img) (pixels img) p = false.
Proof.
  intros Hctx. unfold processFrameData. rewrite !Hctx. simpl.
  destruct (foundPixel (scanFrame img)) eqn:Hfound; simpl.
  - split; [done|]. intros Hnone.
    apply scanFrame_found in Hfound as (p & Hp). by rewrite Hnone in Hp.
  - split; [|done]. intros _ p.
    destruct (survives _ _ _ p) eqn:Hp; [|done].
    assert (foundPixel (scanFrame img) = true) as Ht; [|congruence].
    apply scanFrame_found. by exists p.
Qed.

Lemma processFrameData_null_iff_witness :
  (∀ w ht, getContext2d demo_browser w ht = true) ∧
  (processFrameData demo_browser white2 300 400 = None ↔
   ∀ p, survives (naturalWidth white2) (naturalHeight white2) (pixels white2) p = false).
Proof.
  split; [done|].
  apply (processFrameData_null_iff demo_browser white2 300 400). done.
Defined.

(** ** The frames normalisation returns *)

Section normalizer_output.
Context {num : Type} `{!JsNumber num}.
Implicit Types (br : Browser num) (h : heap) (img : Image).

Lemma onload_normalized br h i img targetWidth targetHeight (zoom : num) :
  h ⊆ (onload br h i img targetWidth targetHeight zoom).1 ∧
  match normalized br img targetWidth targetHeight zoom with
  | Some (canvas, blob) =>
      onload br h i img targetWidth targetHeight zoom
      = (<[fresh (dom h) := canvas]> h,
         Some (mkFrame blob (createObjectURL br blob) i (Some (fresh (dom h)))
                       (Some targetWidth) (Some targetHeight)))
  | None => (onload br h i img targetWidth targetHeight zoom).2 = None
  end.
Proof.
  unfold onload, normalized.
  destruct (getContext2d br targetWidth targetHeight); [|done].
  destruct (processFrameData br img targetWidth targetHeight) as [processed|]; [|done].
  simpl.
  assert (h ⊆ <[fresh (dom h) :=
                  drawImage br processed
                    (placement (cwidth processed) (cheight processed)
                       targetWidth targetHeight zoom) targetWidth targetHeight]> h) as Hsub.
  { apply insert_subseteq, not_elem_of_dom, is_fresh. }
  by destruct (toBlob br _ targetWidth targetHeight) as [blob|].
Qed.

Lemma survivors_S br imageUrls targetWidth targetHeight (zoom : num) n :
  survivors br imageUrls targetWidth targetHeight zoom (n + 1)
  = survivors br imageUrls targetWidth targetHeight zoom n
    ++ option_list ((λ cb, (n, cb)) <$>
         normalized_at br imageUrls targetWidth targetHeight zoom n).
Proof.
  unfold survivors. rewrite seq_app, omap_app. simpl.
  by destruct (normalized_at _ _ _ _ _ n).
Qed.

Lemma frame_of_survivor_weaken br h h1 h2 targetWidth targetHeight s f :
  h1 ⊆ h2 →
  frame_of_survivor br h h1 targetWidth targetHeight s f →
  frame_of_survivor br h h2 targetWidth targetHeight s f.
Proof.
  intros Hsub (pb & -> & Hpb & Hnew). exists pb.
  split; [done|]. split; [|done]. by eapply lookup_weaken.
Qed.

(** The loop of [processGeneratedFrames], as a whole. *)
Lemma processGeneratedFrames_survivors br h imageUrls targetWidth targetHeight (zoom : num) :
  let out := processGeneratedFrames br h imageUrls targetWidth targetHeight zoom in
  h ⊆ out.1 ∧
  Forall2 (frame_of_survivor br h out.1 targetWidth targetHeight)
    (survivors br imageUrls targetWidth targetHeight zoom (length imageUrls)) out.2 ∧
  NoDup (pixelBuffer <$> out.2).
Proof.
  unfold processGeneratedFrames.
  set (n := length imageUrls).
  match goal with |- context [for_loop 1 n 0 n ?body ?s] =>
    destruct (for_loop_inv
      (λ i (st : heap * list GeneratedFrame),
         (i ≤ n)%nat ∧ h ⊆ st.1 ∧
         Forall2 (frame_of_survivor br h st.1 targetWidth targetHeight)
           (survivors br imageUrls targetWidth targetHeight zoom i) st.2 ∧
         NoDup (pixelBuffer <$> st.2))
      1 n 0 n body s) as (k & Hk & Hle & Hsub & Hall & Hdup)
  end.
  - lia.
  - lia.
  - simpl. split; [lia|]. split; [done|]. split; constructor.
  - intros k [hk frames] Hlt (_ & Hsub & Hall & Hdup). simpl in Hsub, Hall, Hdup.
    split; [lia|]. rewrite survivors_S. unfold normalized_at.
    destruct (imageUrls !! k ≫= loadImage br) as [img|]; simpl.
    2: { rewrite app_nil_r. done. }
    destruct (onload_normalized br hk k img targetWidth targetHeight zoom) as [Hgrow Hload].
    destruct (normalized br img targetWidth targetHeight zoom) as [[canvas blob]|].
    + rewrite Hload. simpl.
      assert (hk ⊆ <[fresh (dom hk) := canvas]> hk) as Hins.
      { apply insert_subseteq, not_elem_of_dom, is_fresh. }
      split; [by etrans|]. split.
      * apply Forall2_app.
        -- eapply Forall2_impl; [|exact Hall].
           intros s f. by apply frame_of_survivor_weaken.
        -- apply Forall2_cons; [|constructor].
           exists (fresh (dom hk)). simpl. split; [done|].
           split; [by rewrite lookup_insert_eq|].
           intros Hin. apply (is_fresh (dom hk)).
           eapply elem_of_weaken; [exact Hin|]. by apply subseteq_dom.
      * rewrite fmap_app. simpl. apply list.NoDup_app. split; [done|]. split.
        -- intros pb' Hin ->%list_elem_of_singleton.
           apply list_elem_of_fmap in Hin as (f & Hpb & Hf).
           apply list_elem_of_lookup in Hf as (m & Hm).
           destruct (Forall2_lookup_r _ _ _ _ _ Hall Hm) as (s & _ & pb & -> & Hlook & _).
           simpl in Hpb. injection Hpb as <-.
           apply (is_fresh (dom hk)), elem_of_dom. eauto.
        -- apply NoDup_singleton.
    + destruct (onload br hk k img targetWidth targetHeight zoom) as [hk' pushed].
      simpl in *. subst pushed. simpl. rewrite !app_nil_r.
      split; [by etrans|]. split; [|done].
      eapply Forall2_impl; [|exact Hall].
      intros s f. by apply frame_of_survivor_weaken.
  - replace k with n in * by lia. done.
Qed.
End normalizer_output.

Section normalizer_properties.
Context {num : Type} `{!JsNumber num}.
Implicit Types (br : Browser num) (h : heap) (img : Image).


Lemma frames_of_survivors_buffers br h h' targetWidth targetHeight
    (ss : list (nat * (list Z * Blob))) (fs : list GeneratedFrame) :
  Forall2 (frame_of_survivor br h h' targetWidth targetHeight) ss fs →
  index <$> fs = fst <$> ss ∧
  blob <$> fs = (λ s, s.2.2) <$> ss ∧
  contents h' <$> omap pixelBuffer fs = (λ s, s.2.1) <$> ss ∧
  Forall (λ f, width f = Some targetWidth ∧ height f = Some targetHeight ∧
               ∃ pb, pixelBuffer f = Some pb ∧ pb ∈ dom h' ∧ pb ∉ dom h) fs.
Proof.
  induction 1 as [|s f ss fs (pb & -> & Hpb & Hnew) _ (IH1 & IH2 & IH3 & IH4)];
    [by repeat split|].
  cbn [fmap list_fmap omap list_omap]. simpl.
  split; [by f_equal|]. split; [by f_equal|]. split.
  - f_equal; [|done]. unfold contents. by rewrite Hpb.
  - constructor; [|done]. simpl. repeat split. exists pb.
    split; [done|]. split; [|done]. apply elem_of_dom. eauto.
Qed.
End normalizer_properties.

(** The frames [processGeneratedFrames] returns are fit for the encoders:
    the buffers of the store it started in are untouched, every frame has
    the target width and height, and every frame has a pixel buffer of its
    own, allocated by the run and shared with no other frame. *)
Theorem normalized_frames_wellformed {num : Type} `{!JsNumber num}
    (br : Browser num) (h : heap) (imageUrls : list string)
    (targetWidth targetHeight : Z) (zoom : num) :
  let out := processGeneratedFrames br h imageUrls targetWidth targetHeight zoom in
  h ⊆ out.1 ∧
  Forall (λ f, width f = Some targetWidth ∧ height f = Some targetHeight ∧
               ∃ pb, pixelBuffer f = Some pb ∧ pb ∈ dom out.1 ∧ pb ∉ dom h) out.2 ∧
  NoDup (pixelBuffer <$> out.2).
Proof.
  intros out.
  destruct (processGeneratedFrames_survivors br h imageUrls targetWidth targetHeight zoom)
    as (Hsub & Hall & Hdup).
  fold out in Hsub, Hall, Hdup.
  split; [done|]. split; [|done].
  by apply frames_of_survivors_buffers in Hall as (_ & _ & _ & Hwf).
Qed.


Section after_normalisation.
Context {num : Type} `{!JsNumber num}.
Implicit Types (br : Browser num) (env : Encoders num) (h : heap).

Lemma survivors_frames_length br h imageUrls targetWidth targetHeight (zoom : num) :
  length (processGeneratedFrames br h imageUrls targetWidth targetHeight zoom).2
  = length (survivors br imageUrls targetWidth targetHeight zoom (length imageUrls)).
Proof.
  destruct (processGeneratedFrames_survivors br h imageUrls targetWidth targetHeight zoom)
    as (_ & Hall & _).
  symmetry. by eapply list.Forall2_length.
Qed.

Lemma createApng_survivors br env h imageUrls targetWidth targetHeight (zoom fps : num)
    (encode : list (list Z) → Z → Z → Z → list num → result Blob) :
  let out := processGeneratedFrames br h imageUrls targetWidth targetHeight zoom in
  let kept := survivors br imageUrls targetWidth targetHeight zoom (length imageUrls) in
  UPNG_encode env = Some encode →
  createApng env out.1 out.2 fps
  = if decide (kept = []) then Err "No frames to encode" else
    match encode ((λ s, s.2.1) <$> kept) targetWidth targetHeight 0
                 (replicate (length kept) (nround (of_Z 1000 / fps)%js)) with
    | Ok apngBuffer => Ok apngBuffer
    | Err _ => Err "Failed to encode APNG."
    end.
Proof.
  intros out kept Hupng.
  destruct (processGeneratedFrames_survivors br h imageUrls targetWidth targetHeight zoom)
    as (_ & Hall & _).
  fold out kept in Hall.
  pose proof (list.Forall2_length _ _ _ Hall) as Hlen.
  pose proof (frames_of_survivors_buffers _ _ _ _ _ _ _ Hall) as (_ & _ & Hbuf & Hwf).
  unfold createApng. rewrite Hupng.
  destruct (out.2) as [|f0 fs] eqn:Hout.
  { destruct kept; [done|]. simpl in Hlen. lia. }
  rewrite decide_False by done.
  rewrite (decide_False (P := kept = [])) by (intros Hnil; by rewrite Hnil in Hlen).
  apply Forall_cons_1 in Hwf as [(Hw & Hh & _) _]. simpl. rewrite Hw, Hh. simpl.
  assert (length (omap pixelBuffer (f0 :: fs)) = length kept) as Hn.
  { rewrite <- (length_fmap (contents out.1)), Hbuf. by rewrite length_fmap. }
  simpl in Hn, Hbuf. by rewrite Hn, Hbuf.
Qed.
End after_normalisation.

(** [createApng] after [processGeneratedFrames]: when at least one frame
    survives, the encoder is handed the canvases of the surviving frames in
    index order, the target width and height, and one delay per frame. *)
Theorem apng_of_normalized_frames {num : Type} `{!JsNumber num}
    (br : Browser num) (env : Encoders num) (h : heap) (imageUrls : list string)
    (targetWidth targetHeight : Z) (zoom fps : num)
    (encode : list (list Z) → Z → Z → Z → list num → result Blob) :
  UPNG_encode env = Some encode →
  survivors br imageUrls targetWidth targetHeight zoom (length imageUrls) ≠ [] →
  createApng env
    (processGeneratedFrames br h imageUrls targetWidth targetHeight zoom).1
    (processGeneratedFrames br h imageUrls targetWidth targetHeight zoom).2 fps
  = match encode
            ((λ s, s.2.1) <$>
               survivors br imageUrls targetWidth targetHeight zoom (length imageUrls))
            targetWidth targetHeight 0
            (replicate
               (length (survivors br imageUrls targetWidth targetHeight zoom
                          (length imageUrls)))
               (nround (of_Z 1000 / fps)%js)) with
    | Ok apngBuffer => Ok apngBuffer
    | Err _ => Err "Failed to encode APNG."
    end.
Proof.
  intros Hupng Hkept.
  rewrite (createApng_survivors br env h imageUrls targetWidth targetHeight zoom fps
             encode Hupng).
  by rewrite decide_False.
Qed.

Lemma apng_of_normalized_frames_witness :
  survivors demo_browser ["blob:black3"; "blob:missing"; "blob:black3"] 300 400 1%Qc 3
  ≠ [] ∧
  createApng demo_encoders
    (processGeneratedFrames demo_browser ∅ ["blob:black3"; "blob:missing"; "blob:black3"]
       300 400 1%Qc).1
    (processGeneratedFrames demo_browser ∅ ["blob:black3"; "blob:missing"; "blob:black3"]
       300 400 1%Qc).2 (Qc_of_Z 8)
  = Ok (concat (replicate 8 [0; 0; 0; 255])).
Proof.
  assert (survivors demo_browser ["blob:black3"; "blob:missing"; "blob:black3"]
            300 400 1%Qc 3 ≠ []) as Hkept by (by vm_compute).
  split; [exact Hkept|].
  rewrite (apng_of_normalized_frames demo_browser demo_encoders ∅
             ["blob:black3"; "blob:missing"; "blob:black3"] 300 400 1%Qc (Qc_of_Z 8)
             (λ buffers w ht cnum delays, Ok (concat buffers)) eq_refl Hkept).
  by vm_compute.
Defined.

(** ** The archive and the GIF *)

Lemma imap_pair {A B C : Type} (f : nat → B) (g : A → C) (l : list A) :
  imap (λ i x, (f i, g x)) l = zip (f <$> seq 0 (length l)) (g <$> l).
Proof.
  revert f. induction l as [|x l IH]; intros f; [done|].
  rewrite imap_cons. simpl. f_equal.
  rewrite <- fmap_S_seq, <- list_fmap_compose. apply (IH (f ∘ S)).
Qed.

Lemma sorted_fmap_seq {B : Type} (R : relation B) (f : nat → B) (n : nat) :
  (∀ i j, (i < j < n)%nat → R (f i) (f j)) →
  StronglySorted R (f <$> seq 0 n).
Proof.
  intros HR.
  assert (∀ m k, (k + m ≤ n)%nat → StronglySorted R (f <$> seq k m)) as Hgen.
  { induction m as [|m IH]; intros k Hk; simpl; [constructor|].
    constructor; [apply IH; lia|].
    apply Forall_fmap, Forall_forall. intros j Hj.
    apply list_elem_of_In, elem_of_seq in Hj. simpl. apply HR. lia. }
  apply Hgen. lia.
Qed.

Lemma sorted_lookup {B : Type} (R : relation B) (l : list B) i j x y :
  StronglySorted R l → (i < j)%nat → l !! i = Some x → l !! j = Some y → R x y.
Proof.
  intros Hs. revert i j. induction Hs as [|a l Hs IH Hall]; intros i j Hij Hi Hj; [done|].
  destruct j as [|j]; [lia|]. destruct i as [|i]; simpl in *.
  - simplify_eq. by eapply Forall_lookup_1 in Hall.
  - apply (IH i j); [lia|done|done].
Qed.

Lemma zip_names_sorted_99 (i j : nat) :
  (i < j < 99)%nat → name_lt (zip_name i) (zip_name j).
Proof.
  intros Hij.
  assert (forallb (λ i, forallb (λ j, bool_decide (String.compare (zip_name i) (zip_name j) = Lt))
                                (seq (S i) (99 - S i)))
                  (seq 0 99) = true) as Hall by (by vm_compute).
  rewrite forallb_forall in Hall.
  specialize (Hall i). rewrite forallb_forall in Hall.
  assert (In i (seq 0 99)) as Hi by (apply in_seq; lia).
  assert (In j (seq (S i) (99 - S i))) as Hj by (apply in_seq; lia).
  specialize (Hall Hi j Hj). by apply bool_decide_eq_true in Hall.
Qed.

Section zip.
Context {num : Type} `{!JsNumber num}.

Lemma createZip_eq (env : Encoders num) generateAsync frames :
  JSZip_generate env = Some generateAsync →
  createZip env frames
  = generateAsync "frames" (zip (zip_name <$> seq 0 (length frames)) (blob <$> frames)).
Proof.
  intros Hzip. unfold createZip. rewrite Hzip. f_equal.
  apply (imap_pair zip_name blob).
Qed.
End zip.

(** [createZip] puts the PNG of every frame, in sequence order, into the
    folder "frames", under names that sort in that order exactly when there
    are at most 99 frames: from the hundredth on, "frame_100.png" sorts
    before "frame_11.png". *)
Theorem createZip_files {num : Type} `{!JsNumber num}
    (env : Encoders num) (frames : list GeneratedFrame)
    (generateAsync : string → list (string * Blob) → result Blob) :
  JSZip_generate env = Some generateAsync →
  ∃ files,
    createZip env frames = generateAsync "frames" files ∧
    snd <$> files = blob <$> frames ∧
    fst <$> files = zip_name <$> seq 0 (length frames) ∧
    (StronglySorted name_lt (fst <$> files) ↔ (length frames ≤ 99)%nat).
Proof.
  intros Hzip.
  exists (zip (zip_name <$> seq 0 (length frames)) (blob <$> frames)).
  split; [by apply createZip_eq|].
  assert (length (zip_name <$> seq 0 (length frames)) = length (blob <$> frames)) as Hlen.
  { by rewrite !length_fmap, length_seq. }
  split; [by apply snd_zip; rewrite Hlen|].
  rewrite fst_zip by (by rewrite Hlen). split; [done|]. split.
  - intros Hsorted. destruct (decide (length frames ≤ 99)%nat) as [|Hbig]; [done|].
    exfalso.
    assert (name_lt (zip_name 10) (zip_name 99)) as Hlt; [|done].
    apply (sorted_lookup name_lt _ 10 99 _ _ Hsorted); [lia| |].
    + rewrite list_lookup_fmap, lookup_seq_lt by lia. done.
    + rewrite list_lookup_fmap, lookup_seq_lt by lia. done.
  - intros Hle. apply sorted_fmap_seq. intros i j Hij.
    apply zip_names_sorted_99. lia.
Qed.

Lemma createZip_files_witness :
  JSZip_generate demo_encoders
    = Some (λ folder files, Ok (concat (snd <$> files))) ∧
  ∃ files,
    createZip demo_encoders [demo_frame; demo_frame] = Ok (concat (snd <$> files)) ∧
    snd <$> files = blob <$> [demo_frame; demo_frame] ∧
    fst <$> files = zip_name <$> seq 0 (length [demo_frame; demo_frame]) ∧
    (StronglySorted name_lt (fst <$> files)
     ↔ (length [demo_frame; demo_frame] ≤ 99)%nat).
Proof.
  split; [reflexivity|].
  exact (createZip_files demo_encoders [demo_frame; demo_frame]
           (λ folder files, Ok (concat (snd <$> files))) eq_refl).
Defined.

Example zip_names :
  zip_name <$> [0; 8; 9; 98; 99]%nat
  = ["frame_01.png"; "frame_09.png"; "frame_10.png"; "frame_99.png"; "frame_100.png"].
Proof. reflexivity. Qed.

Section gif_wellformed.
Context {num : Type} `{!JsNumber num}.
Implicit Types (h : heap) (frames : list GeneratedFrame) (fps : num).

Lemma frame_fits_weaken h h' frame :
  h ⊆ h' → frame_in_heap h frame → frame_fits h' frame ↔ frame_fits h frame.
Proof.
  intros Hsub Hin. unfold frame_fits.
  destruct (pixelBuffer frame) as [pb|] eqn:Hpb; [|done].
  rewrite (contents_subseteq h h') by (done || by apply Hin). done.
Qed.

Lemma new_ImageData_keyed h pb w ht :
  new_ImageData (magentaKey pb h).2 (magentaKey pb h).1 w ht =
    if decide (0 < w ∧ 0 < ht ∧ Z.of_nat (length (contents h pb)) = 4 * w * ht)
    then Ok (mkImageData (magentaKey pb h).1 w ht)
    else Err "The input data length is not equal to (4 * width * height).".
Proof.
  rewrite magentaKey_eq. cbn [fst snd]. unfold new_ImageData, view_length.
  rewrite lookup_insert_eq. cbn [default from_option]. rewrite keyed_list_length.
  done.
Qed.

Lemma addFrames_fits h frames fps gif :
  Forall (frame_in_heap h) frames →
  Forall (frame_fits h) frames →
  is_Ok (addFrames h frames fps gif).2.
Proof.
  revert h gif. induction frames as [|frame rest IH]; intros h gif Hin Hfit; [done|].
  apply Forall_cons_1 in Hin as [Hin1 Hin]. apply Forall_cons_1 in Hfit as [Hfit1 Hfit].
  rewrite addFrames_cons. unfold frame_fits in Hfit1.
  destruct (pixelBuffer frame) as [pb|] eqn:Hpb; [|by apply IH].
  destruct (truthy (width frame)) as [w|] eqn:Hw; [|by apply IH].
  destruct (truthy (height frame)) as [ht|] eqn:Hh; [|by apply IH].
  rewrite new_ImageData_keyed, decide_True by done.
  pose proof (magentaKey_subseteq h pb) as Hsub.
  apply IH.
  - eapply Forall_impl; [|exact Hin]. intros f. by apply frame_in_heap_weaken.
  - apply list.Forall_forall. intros f Hf.
    assert (frame_in_heap h f) by (by eapply list.Forall_forall in Hin).
    assert (frame_fits h f) by (by eapply list.Forall_forall in Hfit).
    by apply (frame_fits_weaken h).
Qed.

Lemma addFrames_misfit h frames fps gif :
  Forall (frame_in_heap h) frames →
  Exists (λ frame, ¬ frame_fits h frame) frames →
  (addFrames h frames fps gif).2
  = Err "The input data length is not equal to (4 * width * height).".
Proof.
  revert h gif. induction frames as [|frame rest IH]; intros h gif Hin Hex.
  { by apply Exists_nil in Hex. }
  apply Forall_cons_1 in Hin as [Hin1 Hin].
  rewrite addFrames_cons.
  apply Exists_cons in Hex as [Hbad|Hex].
  - unfold frame_fits in Hbad.
    destruct (pixelBuffer frame) as [pb|] eqn:Hpb; [|done].
    destruct (truthy (width frame)) as [w|] eqn:Hw; [|done].
    destruct (truthy (height frame)) as [ht|] eqn:Hh; [|done].
    by rewrite new_ImageData_keyed, decide_False.
  - destruct (pixelBuffer frame) as [pb|] eqn:Hpb; [|by apply IH].
    destruct (truthy (width frame)) as [w|] eqn:Hw; [|by apply IH].
    destruct (truthy (height frame)) as [ht|] eqn:Hh; [|by apply IH].
    rewrite new_ImageData_keyed. case_decide; [|done].
    pose proof (magentaKey_subseteq h pb) as Hsub.
    apply IH.
    + eapply Forall_impl; [|exact Hin]. intros f. by apply frame_in_heap_weaken.
    + apply list.Exists_exists in Hex as (f & Hf & Hbad).
      apply list.Exists_exists. exists f. split; [done|].
      assert (frame_in_heap h f) by (by eapply list.Forall_forall in Hin).
      by rewrite (frame_fits_weaken h).
Qed.
End gif_wellformed.

(** [createGif] on frames whose buffers are in the store and hold
    width x height pixels each: with gif.js loaded and its worker script
    fetched, the result is what gif.js renders from the keyed copies of the
    frames' buffers, in order, each with delay 1000 / fps, under a
    configuration with the first frame's size and magenta as the
    transparent colour. *)
Theorem createGif_wellformed {num : Type} `{!JsNumber num}
    (env : Encoders num) (h : heap) (frames : list GeneratedFrame) (fps : num)
    (render : GifConfig → list (list Z * Z * Z * num) → result Blob)
    (workerUrl : string) (frame0 : GeneratedFrame) :
  Forall (frame_in_heap h) frames →
  Forall (frame_fits h) frames →
  GIF_render env = Some render →
  fetch_worker env = Ok workerUrl →
  frames !! 0%nat = Some frame0 →
  (createGif env h frames fps).2
  = render (mkGifConfig 2 10 (width frame0) (height frame0) workerUrl 0xFF00FF)
           (omap (gif_input h fps) frames).
Proof.
  intros Hin Hfit Hrender Hfetch Hframe0.
  pose proof (addFrames_fits h frames fps [] Hin Hfit) as Hok.
  destruct (addFrames h frames fps []) as [h' [gif|e]] eqn:Hadd; [|done].
  by rewrite (createGif_renders env h frames fps render workerUrl frame0 h' gif).
Qed.

Lemma createGif_wellformed_witness :
  Forall (frame_in_heap demo_heap) [demo_frame] ∧
  Forall (frame_fits demo_heap) [demo_frame] ∧
  (createGif demo_encoders demo_heap [demo_frame] (Qc_of_Z 8)).2
  = Ok [10; 20; 30; 255; 255; 0; 255; 255].
Proof.
  assert (Forall (frame_in_heap demo_heap) [demo_frame]) as Hin.
  { apply Forall_singleton. intros pb [= <-]. apply elem_of_dom. by exists demo_buffer. }
  assert (Forall (frame_fits demo_heap) [demo_frame]) as Hfit.
  { apply Forall_singleton. by vm_compute. }
  split; [exact Hin|]. split; [exact Hfit|].
  rewrite (createGif_wellformed demo_encoders demo_heap [demo_frame] (Qc_of_Z 8)
             (λ config added, Ok (concat ((λ f, f.1.1.1) <$> added)))
             "blob:gif.worker.js" demo_frame Hin Hfit eq_refl eq_refl eq_refl).
  reflexivity.
Defined.

(** [createGif] with one frame whose buffer does not hold width x height
    pixels: the [ImageData] constructor throws, nothing is rendered, and
    the promise rejects with the constructor's error, whatever the other
    frames are. *)
Theorem createGif_misfit {num : Type} `{!JsNumber num}
    (env : Encoders num) (h : heap) (frames : list GeneratedFrame) (fps : num) :
  Forall (frame_in_heap h) frames →
  Exists (λ frame, ¬ frame_fits h frame) frames →
  is_Some (GIF_render env) →
  is_Ok (fetch_worker env) →
  (createGif env h frames fps).2
  = Err "The input data length is not equal to (4 * width * height).".
Proof.
  intros Hin Hex [render Hrender] Hfetch.
  unfold createGif. rewrite Hrender.
  destruct (fetch_worker env) as [workerUrl|e]; [|done].
  destruct (frames !! 0%nat) as [frame0|] eqn:Hframe0.
  - pose proof (addFrames_misfit h frames fps [] Hin Hex) as Hadd.
    destruct (addFrames h frames fps []) as [h' [gif|e]]; cbn [snd] in *;
      [discriminate Hadd|by injection Hadd as ->].
  - destruct frames; [by apply Exists_nil in Hex|done].
Qed.

Lemma createGif_misfit_witness :
  Forall (frame_in_heap demo_heap) [demo_frame; wide_frame] ∧
  Exists (λ frame, ¬ frame_fits demo_heap frame) [demo_frame; wide_frame] ∧
  (createGif demo_encoders demo_heap [demo_frame; wide_frame] (Qc_of_Z 8)).2
  = Err "The input data length is not equal to (4 * width * height).".
Proof.
  assert (Forall (frame_in_heap demo_heap) [demo_frame; wide_frame]) as Hin.
  { repeat apply Forall_cons_2; [| |apply Forall_nil_2];
      intros pb [= <-]; apply elem_of_dom; by exists demo_buffer. }
  assert (Exists (λ frame, ¬ frame_fits demo_heap frame) [demo_frame; wide_frame]) as Hex.
  { apply Exists_cons_tl, Exists_cons_hd. vm_compute. intros (_ & _ & [=]). }
  split; [exact Hin|]. split; [exact Hex|].
  apply (createGif_misfit demo_encoders demo_heap [demo_frame; wide_frame] (Qc_of_Z 8)
           Hin Hex).
  - by eexists.
  - done.
Defined.

Section gif_after_normalisation.
Context {num : Type} `{!JsNumber num}.
Implicit Types (br : Browser num) (env : Encoders num) (h : heap).

Lemma normalized_canvas br img targetWidth targetHeight (zoom : num) canvas blob :
  normalized br img targetWidth targetHeight zoom = Some (canvas, blob) →
  ∃ processed args, canvas = drawImage br processed args targetWidth targetHeight.
Proof.
  unfold normalized.
  destruct (getContext2d br targetWidth targetHeight); [|done].
  destruct (processFrameData br img targetWidth targetHeight) as [processed|]; [|done].
  simpl. destruct (toBlob br _ targetWidth targetHeight); [|done].
  intros [= <- _]. eauto.
Qed.

Lemma survivors_canvas br imageUrls targetWidth targetHeight (zoom : num) n s :
  s ∈ survivors br imageUrls targetWidth targetHeight zoom n →
  ∃ processed args, s.2.1 = drawImage br processed args targetWidth targetHeight.
Proof.
  unfold survivors. intros (j & _ & Hs)%list_elem_of_omap.
  unfold normalized_at in Hs.
  destruct (imageUrls !! j ≫= loadImage br) as [img|]; [|done]. simpl in Hs.
  destruct (normalized br img targetWidth targetHeight zoom) as [[canvas blob]|] eqn:Hn;
    [|done].
  simpl in Hs. injection Hs as <-. simpl. by eapply normalized_canvas.
Qed.

Lemma frames_of_survivors_gif br h h' targetWidth targetHeight (fps : num)
    (ss : list (nat * (list Z * Blob))) (fs : list GeneratedFrame) :
  targetWidth ≠ 0 → targetHeight ≠ 0 →
  Forall2 (frame_of_survivor br h h' targetWidth targetHeight) ss fs →
  omap (gif_input h' fps) fs
  = (λ s, (keyed_list s.2.1, targetWidth, targetHeight, (of_Z 1000 / fps)%js)) <$> ss ∧
  Forall (frame_in_heap h') fs ∧
  (Forall (λ s, Z.of_nat (length s.2.1) = 4 * targetWidth * targetHeight) ss →
   0 < targetWidth → 0 < targetHeight →
   Forall (frame_fits h') fs).
Proof.
  intros Hw Hh.
  induction 1 as [|s f ss fs (pb & -> & Hpb & Hnew) _ (IH1 & IH2 & IH3)].
  { split; [done|]. split; [constructor|]. intros; constructor. }
  split; [|split].
  - cbn [omap list_omap fmap list_fmap]. unfold gif_input at 1. simpl.
    rewrite !decide_False by done. f_equal; [|exact IH1].
    unfold contents. by rewrite Hpb.
  - constructor; [|done]. intros pb' [= <-]. apply elem_of_dom. eauto.
  - intros [Hlen Hrest]%Forall_cons_1 Hw0 Hh0. constructor; [|by apply IH3].
    unfold frame_fits. simpl. rewrite !decide_False by done.
    unfold contents. rewrite Hpb. simpl. done.
Qed.
End gif_after_normalisation.

(** [createGif] after [processGeneratedFrames], in a browser whose canvas
    data has the size of the canvas: when a frame survives and gif.js and
    its worker are available, no [ImageData] is refused, and gif.js renders
    the keyed canvases of the surviving frames in index order, at the target
    size. *)
Theorem gif_of_normalized_frames {num : Type} `{!JsNumber num}
    (br : Browser num) (env : Encoders num) (h : heap) (imageUrls : list string)
    (targetWidth targetHeight : Z) (zoom fps : num)
    (render : GifConfig → list (list Z * Z * Z * num) → result Blob)
    (workerUrl : string) :
  0 < targetWidth → 0 < targetHeight →
  (∀ processed args,
     Z.of_nat (length (drawImage br processed args targetWidth targetHeight))
     = 4 * targetWidth * targetHeight) →
  GIF_render env = Some render →
  fetch_worker env = Ok workerUrl →
  survivors br imageUrls targetWidth targetHeight zoom (length imageUrls) ≠ [] →
  (createGif env
     (processGeneratedFrames br h imageUrls targetWidth targetHeight zoom).1
     (processGeneratedFrames br h imageUrls targetWidth targetHeight zoom).2 fps).2
  = render
      (mkGifConfig 2 10 (Some targetWidth) (Some targetHeight) workerUrl 0xFF00FF)
      ((λ s, (keyed_list s.2.1, targetWidth, targetHeight, (of_Z 1000 / fps)%js)) <$>
         survivors br imageUrls targetWidth targetHeight zoom (length imageUrls)).
Proof.
  intros Hw Hh Hdata Hrender Hfetch Hkept.
  destruct (processGeneratedFrames_survivors br h imageUrls targetWidth targetHeight zoom)
    as (_ & Hall & _).
  set (out := processGeneratedFrames br h imageUrls targetWidth targetHeight zoom) in *.
  set (kept := survivors br imageUrls targetWidth targetHeight zoom (length imageUrls)) in *.
  destruct (frames_of_survivors_gif br h out.1 targetWidth targetHeight fps kept out.2)
    as (Hgif & Hin & Hfit); [lia|lia|done|].
  assert (Forall (frame_fits out.1) out.2) as Hfits.
  { apply Hfit; [|done|done]. apply list.Forall_forall. intros s Hs.
    apply survivors_canvas in Hs as (processed & args & ->). apply Hdata. }
  pose proof (frames_of_survivors_buffers _ _ _ _ _ _ _ Hall) as (_ & _ & _ & Hwf).
  destruct (out.2) as [|frame0 frames] eqn:Hout.
  { apply list.Forall2_length in Hall. destruct kept; [done|]. simpl in Hall. lia. }
  pose proof (addFrames_fits out.1 (frame0 :: frames) fps [] Hin Hfits) as Hok.
  destruct (addFrames out.1 (frame0 :: frames) fps []) as [h' [gif|e]] eqn:Hadd; [|done].
  rewrite (createGif_renders env out.1 (frame0 :: frames) fps render workerUrl frame0 h' gif)
    by done.
  apply Forall_cons_1 in Hwf as [(Hw0 & Hh0 & _) _].
  cbn [snd]. by rewrite Hw0, Hh0, Hgif.
Qed.

Lemma gif_of_normalized_frames_witness :
  0 < 2 ∧ 0 < 1 ∧
  survivors blank_browser ["blob:dot3"; "blob:white2"] 2 1 1%Qc 2 ≠ [] ∧
  (createGif demo_encoders
     (processGeneratedFrames blank_browser ∅ ["blob:dot3"; "blob:white2"] 2 1 1%Qc).1
     (processGeneratedFrames blank_browser ∅ ["blob:dot3"; "blob:white2"] 2 1 1%Qc).2
     (Qc_of_Z 8)).2
  = Ok [255; 0; 255; 255; 255; 0; 255; 255].
Proof.
  assert (survivors blank_browser ["blob:dot3"; "blob:white2"] 2 1 1%Qc 2 ≠ [])
    as Hkept by (by vm_compute).
  split; [lia|]. split; [lia|]. split; [exact Hkept|].
  rewrite (gif_of_normalized_frames blank_browser demo_encoders ∅
             ["blob:dot3"; "blob:white2"] 2 1 1%Qc (Qc_of_Z 8)
             (λ config added, Ok (concat ((λ f, f.1.1.1) <$> added)))
             "blob:gif.worker.js"); [by vm_compute|lia|lia|done|done|done|exact Hkept].
Defined.

(** ** Runs of the generator and of [handleGenerate] *)

Section promise_all_more.
Context {A : Type}.
Implicit Types (promises : list (nat * result A)).

Lemma promise_all_fulfilled promises :
  Forall (λ p, is_Ok p.2) promises → is_Ok (promise_all promises).
Proof.
  intros Hall. destruct (promise_all promises) as [values|e] eqn:Hp; [done|].
  apply promise_all_Err in Hp as [t Hin].
  by eapply list.Forall_forall in Hall; [|exact Hin].
Qed.

Lemma promise_all_same_reason promises e :
  promises ≠ [] → Forall (λ p, p.2 = Err e) promises → promise_all promises = Err e.
Proof.
  intros Hne Hall. destruct (promise_all promises) as [values|e'] eqn:Hp.
  - apply promise_all_Ok in Hp. destruct Hp as [|p v ps vs Hpv _]; [done|].
    apply Forall_cons_1 in Hall as [Hp _]. congruence.
  - apply promise_all_Err in Hp as [t Hin].
    eapply list.Forall_forall in Hall; [|exact Hin]. simpl in Hall. congruence.
Qed.
End promise_all_more.

Section generator_more.
Context (rm : Remote) (imageBase64 mimeType prompt : string).
Context (count : nat) (signal : option (nat → bool)).

Lemma calls_of_app (tr1 tr2 : list Event) :
  calls_of (tr1 ++ tr2) = calls_of tr1 ++ calls_of tr2.
Proof. apply omap_app. Qed.

Lemma calls_of_calls (js : list nat) : calls_of (CallGenerate <$> js) = js.
Proof. induction js as [|j js IH]; [done|]. simpl. by f_equal. Qed.

Lemma batch_indices_lt i j : j ∈ batch_indices i count → (j < count)%nat.
Proof. unfold batch_indices. intros ?%elem_of_seq. lia. Qed.

Lemma batches_succeeds fuel i urls st :
  never_aborted signal →
  (∀ j, (j < count)%nat → is_Ok (frame_result rm imageBase64 mimeType prompt count j)) →
  is_Ok (batches rm imageBase64 mimeType prompt count signal fuel i urls st).2.
Proof.
  intros Hsignal Hframes. revert i urls st.
  induction fuel as [|fuel IH]; intros i urls st; simpl; [done|].
  case_decide; [|done].
  rewrite (Hsignal (reads st)). rewrite startBatch_eq.
  destruct (promise_all _) as [batchResults|e] eqn:Hall.
  - cbn [reads]. rewrite (Hsignal (S (reads st))). apply IH.
  - exfalso.
    pose proof (promise_all_fulfilled
      ((λ j, (settles rm j, frame_result rm imageBase64 mimeType prompt count j))
         <$> batch_indices i count)) as Hok.
    rewrite Hall in Hok. apply Hok.
    apply Forall_fmap, list.Forall_forall. intros j Hj. simpl.
    by apply Hframes, (batch_indices_lt i).
Qed.

Lemma seq_glue (i a b c d : nat) :
  (b = 0 ∧ c = a)%nat ∨ (d = i + a ∧ c = a + b)%nat → seq i a ++ seq d b = seq i c.
Proof. intros [[-> ->]|[-> ->]]; [apply app_nil_r|by rewrite seq_app]. Qed.

(** The requests of a run from batch start [i]: whole batches, in order. *)
Lemma batches_calls fuel i urls st :
  ∃ m : nat,
    calls_of (trace (batches rm imageBase64 mimeType prompt count signal fuel i urls st).1)
    = calls_of (trace st) ++ seq i ((i + batchSize * m) `min` count - i).
Proof.
  revert i urls st. induction fuel as [|fuel IH]; intros i urls st; simpl.
  { exists 0%nat. replace (_ - i)%nat with 0%nat by lia. by rewrite app_nil_r. }
  case_decide as Hlt.
  2: { exists 0%nat. replace (_ - i)%nat with 0%nat by lia. by rewrite app_nil_r. }
  destruct (from_option (λ s, s (reads st)) false signal).
  { exists 0%nat. simpl. rewrite calls_of_app. simpl.
    replace (_ - i)%nat with 0%nat by lia. done. }
  rewrite startBatch_eq.
  assert (∀ b, calls_of ((trace st ++ [ReadAborted b]) ++ (CallGenerate <$> batch_indices i count))
               = calls_of (trace st) ++ seq i ((i + batchSize * 1) `min` count - i)) as Hbatch.
  { intros b. rewrite !calls_of_app, calls_of_calls.
    change (calls_of [ReadAborted b]) with (@nil nat). rewrite app_nil_r.
    unfold batch_indices. by rewrite Nat.mul_1_r. }
  destruct (promise_all _) as [batchResults|e].
  2: { exists 1%nat. simpl. apply Hbatch. }
  cbn [reads trace].
  destruct (from_option (λ s, s (S (reads st))) false signal).
  { exists 1%nat. simpl. rewrite calls_of_app. simpl. rewrite app_nil_r. apply Hbatch. }
  match goal with |- context [batches _ _ _ _ _ _ fuel ?i' ?urls' ?st'] =>
    destruct (IH i' urls' st') as (m & Hm) end.
  exists (S m). rewrite Hm. simpl. rewrite calls_of_app. simpl. rewrite app_nil_r.
  rewrite Hbatch, <- app_assoc. f_equal.
  apply seq_glue. unfold batchSize. lia.
Qed.

End generator_more.

(** When the token is never aborted and every one of the [count] requests
    succeeds, [generateAnimationFrames] returns [count] URLs, the URL of
    frame [j] at position [j], whatever the order in which the requests
    of a batch settle. *)
Theorem generation_succeeds (rm : Remote) (imageBase64 mimeType prompt : string)
    (count : nat) (signal : option (nat → bool)) :
  never_aborted signal →
  (∀ j, (j < count)%nat →
        is_Ok (generateSingleFrame rm imageBase64 mimeType prompt j count)) →
  ∃ urls,
    (generateAnimationFrames rm imageBase64 mimeType prompt count signal).2 = Ok urls ∧
    length urls = count ∧
    ∀ j, (j < count)%nat →
      Ok <$> urls !! j = Some (generateSingleFrame rm imageBase64 mimeType prompt j count).
Proof.
  intros Hsignal Hframes.
  pose proof (batches_succeeds rm imageBase64 mimeType prompt count signal count 0 []
                (mkGenState [] 0) Hsignal Hframes) as Hok.
  fold (generateAnimationFrames rm imageBase64 mimeType prompt count signal) in Hok.
  destruct (generateAnimationFrames rm imageBase64 mimeType prompt count signal).2
    as [urls|e] eqn:Hrun; [|done].
  exists urls. split; [done|].
  apply generateAnimationFrames_Ok in Hrun.
  pose proof (list.Forall2_length _ _ _ Hrun) as Hlen. rewrite length_seq in Hlen.
  split; [done|]. intros j Hj.
  destruct (Forall2_lookup_l _ _ _ j j Hrun) as (u & Hu & Hres).
  { apply lookup_seq. lia. }
  unfold frame_result in Hres. by rewrite Hu, Hres.
Qed.

Lemma generation_succeeds_witness :
  never_aborted None ∧
  ∃ urls,
    (generateAnimationFrames (demo_remote None) "ref" "image/png" "wave" 4 None).2
      = Ok urls ∧
    length urls = 4%nat ∧
    ∀ j, (j < 4)%nat →
      Ok <$> urls !! j
      = Some (generateSingleFrame (demo_remote None) "ref" "image/png" "wave" j 4).
Proof.
  assert (never_aborted None) as Hsignal by (by intros n).
  split; [exact Hsignal|].
  apply (generation_succeeds (demo_remote None) "ref" "image/png" "wave" 4 None Hsignal).
  intros j Hj.
  destruct j as [|[|[|[|j]]]]; [by vm_compute..|lia].
Defined.


Section run_more.
Context {num : Type} `{!JsNumber num}.
Implicit Types (rm : Remote) (br : Browser num) (env : Encoders num) (h : heap).

Lemma createApng_messages env h frames (fps : num) e :
  createApng env h frames fps = Err e →
  e = "UPNG library not loaded" ∨ e = "No frames to encode" ∨ e = "Failed to encode APNG.".
Proof.
  unfold createApng. destruct (UPNG_encode env) as [encode|]; [|intros [= <-]; by left].
  case_decide; [intros [= <-]; right; by left|].
  destruct (encode _ _ _ _ _); [done|]. intros [= <-]. right. by right.
Qed.

Lemma encodeArtifacts_Err env h frames (fps : num) e :
  (encodeArtifacts env h frames fps).2 = Err e →
  createApng env h frames fps = Err e.
Proof.
  unfold encodeArtifacts. destruct (createApng env h frames fps) as [apng|e'].
  - by destruct (createGif env h frames fps).
  - simpl. by intros [= <-].
Qed.


Lemma generation_without_key rm imageBase64 mimeType prompt count signal :
  nonempty (API_KEY rm) = None →
  (0 < count)%nat →
  from_option (λ s, s 0%nat) false signal = false →
  (generateAnimationFrames rm imageBase64 mimeType prompt count signal).2 = Err key_missing.
Proof.
  intros Hkey Hcount Hsignal. unfold generateAnimationFrames.
  destruct count as [|n]; [lia|]. cbn [batches]. rewrite decide_True by lia.
  cbn [read_aborted reads]. rewrite Hsignal. rewrite startBatch_eq.
  rewrite (promise_all_same_reason _ key_missing); [reflexivity| |].
  - unfold batch_indices, batchSize.
    replace ((0 + 3) `min` S n - 0)%nat with (S ((0 + 3) `min` S n - 1))%nat by lia.
    done.
  - apply Forall_fmap, list.Forall_forall. intros j _. simpl.
    unfold frame_result, generateSingleFrame, getAiClient. by rewrite Hkey.
Qed.
End run_more.

(** A run started while [process.env.API_KEY] is absent or empty (which
    [checkApiKey] lets pass when a key is selected in AI Studio): unless
    the run is cancelled before its first batch, every request of the first
    batch fails in [getAiClient], the run fails, and the user is shown the
    missing-key notice, not the message of the error. *)
Theorem run_without_key {num : Type} `{!JsNumber num}
    (rm : Remote) (br : Browser num) (env : Encoders num) (h : heap)
    (base64Data mimeType : string) (config : UserConfig num)
    (signal : option (nat → bool)) (originalDimensions : option (Z * Z))
    (parseError : string → option string) :
  nonempty (API_KEY rm) = None →
  (0 < frameCount config)%nat →
  from_option (λ s, s 0%nat) false signal = false →
  checkApiKey rm (Some (Ok true)) = true ∧
  checkApiKey rm None = false ∧
  handleGenerate rm br env h base64Data mimeType config signal originalDimensions
  = Failed key_missing ∧
  displayed parseError
    (handleGenerate rm br env h base64Data mimeType config signal originalDimensions)
  = Some AuthError.
Proof.
  intros Hkey Hcount Hsignal.
  assert (handleGenerate rm br env h base64Data mimeType config signal originalDimensions
          = Failed key_missing) as Hrun.
  { apply handleGenerate_failed; [|done]. by apply generation_without_key. }
  unfold checkApiKey. rewrite Hkey, Hrun. done.
Qed.

Lemma run_without_key_witness :
  nonempty (API_KEY keyless_remote) = None ∧
  displayed (λ _, Some "parsed")
    (handleGenerate keyless_remote demo_browser demo_encoders ∅ "ref" "image/png" demo_config None
       (Some (300, 400)))
  = Some AuthError.
Proof.
  split; [reflexivity|].
  apply (run_without_key keyless_remote demo_browser demo_encoders ∅ "ref" "image/png" demo_config
           None (Some (300, 400)) (λ _, Some "parsed")); [reflexivity|vm_compute; lia|reflexivity].
Defined.

(** [handleGenerate] ends as cancelled exactly when the generator ended
    with the abort error: once the frames are generated, the token is not
    consulted again, and no failure of normalisation or encoding is taken
    as a cancellation. *)
Theorem cancelled_only_in_generation {num : Type} `{!JsNumber num}
    (rm : Remote) (br : Browser num) (env : Encoders num) (h : heap)
    (base64Data mimeType : string) (config : UserConfig num)
    (signal : option (nat → bool)) (originalDimensions : option (Z * Z)) :
  handleGenerate rm br env h base64Data mimeType config signal originalDimensions
  = Cancelled
  ↔ (generateAnimationFrames rm base64Data mimeType (prompt config)
       (frameCount config) signal).2 = Err abort_message.
Proof.
  split; [|apply handleGenerate_cancelled].
  unfold handleGenerate.
  destruct (generateAnimationFrames _ _ _ _ _ _) as [st [frameUrls|e]]; simpl.
  - destruct (processGeneratedFrames _ _ _ _ _ _) as [h' frames].
    destruct (encodeArtifacts env h' frames (fps config)) as [h2 [a|e]] eqn:Henc; [done|].
    pose proof (encodeArtifacts_Err env h' frames (fps config) e) as Happ.
    rewrite Henc in Happ. specialize (Happ eq_refl).
    apply createApng_messages in Happ as [-> | [-> | ->] ]; by vm_compute.
  - unfold catch_error. case_decide; [by subst|done].
Qed.



(** The preview index under the timer: after any tick it is a valid index
    of the frames, even when it was not before (frames replaced by fewer),
    and from a valid index [k] ticks move it [k] frames forward, wrapping
    round, so every frame is shown once every [length frames] ticks. *)
Theorem preview_cycles (n prev k : nat) :
  (0 < n)%nat →
  (nextPreviewIndex (Some n) prev < n)%nat ∧
  ((prev < n)%nat →
   Nat.iter k (nextPreviewIndex (Some n)) prev = ((prev + k) `mod` n)%nat).
Proof.
  intros Hn. unfold nextPreviewIndex. simpl.
  rewrite decide_False by lia. split.
  - apply Nat.mod_upper_bound. lia.
  - intros Hprev. induction k as [|k IH].
    + simpl. rewrite Nat.add_0_r. by rewrite Nat.mod_small.
    + simpl. rewrite IH.
      rewrite Nat.Div0.add_mod_idemp_l. f_equal. lia.
Qed.

Lemma preview_cycles_witness :
  (0 < 3)%nat ∧ (nextPreviewIndex (Some 3%nat) 7 < 3)%nat ∧
  Nat.iter 3 (nextPreviewIndex (Some 3%nat)) 1%nat = 1%nat.
Proof.
  split; [lia|].
  destruct (preview_cycles 3 7 0) as [Hlt _]; [lia|]. split; [exact Hlt|].
  destruct (preview_cycles 3 1 3) as [_ Hiter]; [lia|]. by rewrite Hiter by lia.
Defined.

(** ** Where a failure comes from, and what is shown for it *)

Section failure_source.
Context (rm : Remote) (imageBase64 mimeType prompt : string).
Context (count : nat) (signal : option (nat → bool)).

Lemma generateSingleFrame_stopped index total response candidate reason :
  is_Some (nonempty (API_KEY rm)) →
  generateContent rm index
    (mkRequest imageBase64 mimeType (enhancedPrompt prompt index total)) = Ok response →
  head (candidates response) = Some candidate →
  finishReason candidate = Some reason →
  reason ≠ "" → reason ≠ "STOP" →
  generateSingleFrame rm imageBase64 mimeType prompt index total
  = Err ("Model stopped generation: " +:+ reason).
Proof.
  intros [key Hkey] Hresp Hcand Hreason Hne Hstop.
  unfold generateSingleFrame, getAiClient. rewrite Hkey, Hresp, Hcand, Hreason.
  cbn [nonempty default from_option]. rewrite decide_False by done.
  by rewrite bool_decide_eq_true_2.
Qed.

(** A run that fails otherwise than by the abort error fails with the
    error of one of the requests it made. *)
Lemma generation_Err_source e :
  (generateAnimationFrames rm imageBase64 mimeType prompt count signal).2 = Err e →
  e ≠ abort_message →
  ∃ j, (j < count)%nat ∧
       j ∈ calls_of (trace (generateAnimationFrames rm imageBase64 mimeType prompt
                              count signal).1) ∧
       frame_result rm imageBase64 mimeType prompt count j = Err e.
Proof.
  intros Hrun Hne.
  destruct (batches_trace rm imageBase64 mimeType prompt count signal count 0 []
              (mkGenState [] 0)) as (new & Htrace & _ & Hresult).
  destruct (batches_calls rm imageBase64 mimeType prompt count signal count 0 []
              (mkGenState [] 0)) as (m & Hcalls).
  fold (generateAnimationFrames rm imageBase64 mimeType prompt count signal)
    in Htrace, Hresult, Hcalls.
  rewrite Hrun in Hresult. simpl in Htrace, Hcalls.
  destruct Hresult as [(pre & _ & _ & ->)|(_ & j & Hj & He)]; [done|].
  assert (j ∈ calls_of (trace (generateAnimationFrames rm imageBase64 mimeType prompt
                                  count signal).1)) as Hin.
  { rewrite Htrace. unfold calls_of. apply list_elem_of_omap. by exists (CallGenerate j). }
  exists j. split; [|done].
  rewrite Hcalls in Hin. apply elem_of_seq in Hin. lia.
Qed.
End failure_source.

(** A run of [generateAnimationFrames] that rejects with an error other
    than the abort error rejects with the error of one of its own requests:
    a request for a frame below [count] that the run has made. *)
Theorem generation_failure_source (rm : Remote) (imageBase64 mimeType prompt : string)
    (count : nat) (signal : option (nat → bool)) (e : string) :
  (generateAnimationFrames rm imageBase64 mimeType prompt count signal).2 = Err e →
  e ≠ abort_message →
  ∃ j, (j < count)%nat ∧
       j ∈ calls_of (trace (generateAnimationFrames rm imageBase64 mimeType prompt
                              count signal).1) ∧
       generateSingleFrame rm imageBase64 mimeType prompt j count = Err e.
Proof. apply generation_Err_source. Qed.

Lemma generation_failure_source_witness :
  ∃ j, (j < 6)%nat ∧
       j ∈ calls_of (trace (generateAnimationFrames (demo_remote (Some 3%nat)) "ref"
                              "image/png" "wave" 6 None).1) ∧
       generateSingleFrame (demo_remote (Some 3%nat)) "ref" "image/png" "wave" j 6
       = Err "Model stopped generation: SAFETY".
Proof.
  apply (generation_failure_source (demo_remote (Some 3%nat)) "ref" "image/png" "wave"
           6 None "Model stopped generation: SAFETY"); [reflexivity|done].
Defined.

(** A run in which every request that fails was stopped by the model with
    finish reason SAFETY (whether or not the candidate carries an image),
    and which fails otherwise than by cancellation, shows the user the
    safety-filter text, not the message of the error. *)
Theorem safety_stop_shown {num : Type} `{!JsNumber num}
    (rm : Remote) (br : Browser num) (env : Encoders num) (h : heap)
    (base64Data mimeType : string) (config : UserConfig num)
    (signal : option (nat → bool)) (originalDimensions : option (Z * Z))
    (parseError : string → option string) (e : string) :
  is_Some (nonempty (API_KEY rm)) →
  (∀ j, (j < frameCount config)%nat →
     is_Err (generateSingleFrame rm base64Data mimeType (prompt config) j
               (frameCount config)) →
     ∃ response candidate,
       generateContent rm j
         (mkRequest base64Data mimeType
            (enhancedPrompt (prompt config) j (frameCount config))) = Ok response ∧
       head (candidates response) = Some candidate ∧
       finishReason candidate = Some "SAFETY") →
  (generateAnimationFrames rm base64Data mimeType (prompt config)
     (frameCount config) signal).2 = Err e →
  e ≠ abort_message →
  handleGenerate rm br env h base64Data mimeType config signal originalDimensions
  = Failed safety_stop ∧
  displayed parseError
    (handleGenerate rm br env h base64Data mimeType config signal originalDimensions)
  = Some SafetyError.
Proof.
  intros Hkey Hstops Hrun Hne.
  destruct (generation_Err_source rm base64Data mimeType (prompt config)
              (frameCount config) signal e Hrun Hne) as (j & Hj & _ & He).
  unfold frame_result in He.
  destruct (Hstops j Hj) as (response & candidate & Hresp & Hcand & Hreason).
  { by rewrite He. }
  rewrite (generateSingleFrame_stopped rm base64Data mimeType (prompt config) j
             (frameCount config) response candidate "SAFETY") in He by done.
  injection He as <-.
  rewrite (handleGenerate_failed rm br env h base64Data mimeType config signal
             originalDimensions _ Hrun Hne).
  done.
Qed.

Lemma safety_stop_shown_witness :
  displayed (λ _, None)
    (handleGenerate (demo_remote (Some 1%nat)) demo_browser demo_encoders ∅ "ref"
       "image/png" demo_config None (Some (300, 400)))
  = Some SafetyError.
Proof.
  apply (safety_stop_shown (demo_remote (Some 1%nat)) demo_browser demo_encoders ∅ "ref"
           "image/png" demo_config None (Some (300, 400)) (λ _, None)
           "Model stopped generation: SAFETY").
  - by eexists.
  - intros j Hj Herr.
    assert (j = 1%nat) as ->.
    { destruct j as [|[|j]]; [by vm_compute in Herr|done|vm_compute in Hj; lia]. }
    exists safety_response, (mkCandidate (Some "SAFETY") []). done.
  - reflexivity.
  - done.
Defined.
